(** * Water surface simulation of pyweek27 ([main.py], class [Water])

    A shallow embedding of the height-field wave simulator ([Water.update]),
    the scripted drip ([Water.drip]) and the buoyancy coupling
    ([Water.pre_solve]), together with the numpy and Python primitives they
    rest on (slicing, broadcasting, [np.convolve], [np.clip], [np.mean],
    [round], [int]).

    Numbers.  A Python/numpy float is modelled as an exact rational or one of
    the three IEEE special values.  Arithmetic on finite values is exact
    (rounding and overflow are not modelled, zeros carry no sign, decimal
    literals denote the decimal they spell); the special values follow the
    IEEE rules that numpy applies to arrays: [x / 0] is an infinity or NaN,
    [inf - inf] and [0 * inf] are NaN, NaN propagates and compares false.
    Where a statement would depend on a product or sum not overflowing, or
    on which side of a threshold a rounded value falls, it carries a bound
    on the magnitudes ([moderate], [time_step], [scalable]) or a margin, so
    that it reads the same on doubles.

    Errors.  A Python exception is [None] in the option monad. *)

From Stdlib Require Import QArith Qcanon Qround ZArith Lqa.
From stdpp Require Import base numbers list option strings pretty gmap.

Local Open Scope Z_scope.

(** ** Floats *)

Inductive float : Type :=
  | Fin (q : Qc)
  | PInf
  | NInf
  | NaN.

#[global] Instance float_eq_dec : EqDecision float.
Proof. solve_decision. Defined.

#[global] Instance float_inhabited : Inhabited float := populate (Fin 0%Qc).

(** The literal [n/d], and an integer as a float. *)
Definition fl (n : Z) (d : positive) : float := Fin (Q2Qc (n # d)).
Definition of_Z (n : Z) : float := Fin (Q2Qc (inject_Z n)).

Definition f0 : float := Fin 0%Qc.
Definition f1 : float := Fin 1%Qc.

Definition is_finite (x : float) : Prop :=
  match x with Fin _ => True | _ => False end.

#[global] Instance is_finite_dec x : Decision (is_finite x).
Proof. destruct x; simpl; apply _. Defined.

Definition fopp (x : float) : float :=
  match x with
  | Fin a => Fin (- a)%Qc
  | PInf => NInf
  | NInf => PInf
  | NaN => NaN
  end.

Definition fadd (x y : float) : float :=
  match x, y with
  | NaN, _ | _, NaN => NaN
  | PInf, NInf | NInf, PInf => NaN
  | PInf, _ | _, PInf => PInf
  | NInf, _ | _, NInf => NInf
  | Fin a, Fin b => Fin (a + b)%Qc
  end.

Definition fsub (x y : float) : float := fadd x (fopp y).

(** Sign of a float that is not NaN. *)
Definition fsign (x : float) : comparison :=
  match x with
  | Fin a => (a ?= 0)%Qc
  | PInf => Gt
  | NInf => Lt
  | NaN => Eq
  end.

(** The infinity of a given sign; a zero sign (from [0 * inf]) is NaN. *)
Definition inf_of (s : comparison) : float :=
  match s with Gt => PInf | Lt => NInf | Eq => NaN end.

Definition sign_mul (s t : comparison) : comparison :=
  match s, t with
  | Eq, _ | _, Eq => Eq
  | Gt, Gt | Lt, Lt => Gt
  | _, _ => Lt
  end.

Definition fmul (x y : float) : float :=
  match x, y with
  | NaN, _ | _, NaN => NaN
  | Fin a, Fin b => Fin (a * b)%Qc
  | _, _ => inf_of (sign_mul (fsign x) (fsign y))
  end.

(** Array division of numpy: a zero divisor gives an infinity of the sign of
    the dividend, or NaN for [0 / 0]; nothing is raised. *)
Definition fdiv (x y : float) : float :=
  match x, y with
  | NaN, _ | _, NaN => NaN
  | Fin a, Fin b =>
      if decide (b = 0%Qc) then inf_of (a ?= 0)%Qc else Fin (a / b)%Qc
  | Fin _, _ => f0
  | _, Fin b =>
      inf_of (sign_mul (fsign x) (if decide (b = 0%Qc) then Gt else (b ?= 0)%Qc))
  | _, _ => NaN
  end.

Definition fabs (x : float) : float :=
  match x with
  | Fin a => Fin (if decide (a < 0)%Qc then - a else a)%Qc
  | PInf | NInf => PInf
  | NaN => NaN
  end.

(** [x < y]; false as soon as one side is NaN. *)
Definition flt (x y : float) : bool :=
  match x, y with
  | NaN, _ | _, NaN => false
  | Fin a, Fin b => bool_decide (a < b)%Qc
  | NInf, NInf | PInf, _ | _, NInf => false
  | _, _ => true
  end.

(** [x <= y]; false as soon as one side is NaN. *)
Definition fle (x y : float) : bool :=
  match x, y with
  | NaN, _ | _, NaN => false
  | Fin a, Fin b => bool_decide (a ≤ b)%Qc
  | NInf, _ | _, PInf => true
  | _, _ => false
  end.

(** [x >= y] *)
Definition fge (x y : float) : bool := fle y x.

(** [np.maximum] and [np.minimum]: NaN propagates. *)
Definition fmaximum (x y : float) : float :=
  match x, y with
  | NaN, _ | _, NaN => NaN
  | _, _ => if flt x y then y else x
  end.

Definition fminimum (x y : float) : float :=
  match x, y with
  | NaN, _ | _, NaN => NaN
  | _, _ => if flt y x then y else x
  end.

(** [np.clip(x, lo, hi)] is [minimum(maximum(x, lo), hi)]. *)
Definition np_clip (x lo hi : float) : float := fminimum (fmaximum x lo) hi.

(** Python [round(x)] on a float: nearest integer, ties to the even one;
    [ValueError] on NaN and [OverflowError] on an infinity. *)
Definition round_half_even (q : Q) : Z :=
  let f := Qfloor q in
  match (q - inject_Z f ?= 1 # 2)%Q with
  | Lt => f
  | Gt => f + 1
  | Eq => if Z.even f then f else f + 1
  end.

Definition py_round (x : float) : option Z :=
  match x with
  | Fin a => Some (round_half_even a)
  | _ => None
  end.

(** Python [int(x)]: truncation toward zero, raising on NaN and infinities. *)
Definition py_int (x : float) : option Z :=
  match x with
  | Fin a => Some (Z.quot (Qnum a) (Z.pos (Qden a)))
  | _ => None
  end.

(** Python's [**] on floats is not rational-valued, so it is left abstract:
    an interface with one operation.  The source uses it as [0.5 ** dt] and
    [0.6 ** dt]. *)
Class PyPow := py_pow : float → float → float.

(** ** Arrays (one-dimensional numpy arrays of floats) *)

(** One bound of a slice, as Python adjusts it to a sequence of length [n]:
    a negative bound counts from the end, then the bound is cut to [0, n]. *)
Definition resolve (n : nat) (i : Z) : nat :=
  if decide (i < 0) then Z.to_nat (Z.max (i + Z.of_nat n) 0)
  else Z.to_nat (Z.min i (Z.of_nat n)).

(** Positions that [l[a:b]] covers on a sequence of length [n]. *)
Definition slice_indices (n : nat) (a b : Z) : list nat :=
  seq (resolve n a) (resolve n b - resolve n a).

(** [l[a:b]] *)
Definition getslice (l : list float) (a b : Z) : list float :=
  take (resolve (length l) b - resolve (length l) a)
       (drop (resolve (length l) a) l).

(** [l[a:b] = new]: the value must have the shape of the slice, or length 1
    (broadcast); anything else is a [ValueError]. *)
Definition setslice (l : list float) (a b : Z) (new : list float)
  : option (list float) :=
  let lo := resolve (length l) a in
  let len := (resolve (length l) b - lo)%nat in
  if decide (length new = len) then
    Some (take lo l ++ new ++ drop (lo + len) l)
  else match new with
       | [x] => Some (take lo l ++ replicate len x ++ drop (lo + len) l)
       | _ => None
       end.

(** [l[i] = x] for an integer index: negative indices count from the end,
    an index outside the array is an [IndexError]. *)
Definition setitem (l : list float) (i : Z) (x : float) : option (list float) :=
  let j := if decide (i < 0) then i + Z.of_nat (length l) else i in
  if decide (0 ≤ j < Z.of_nat (length l)) then Some (<[Z.to_nat j := x]> l)
  else None.

(** [a + b] on arrays, with numpy broadcasting of a length-1 operand. *)
Definition np_add (a b : list float) : option (list float) :=
  if decide (length a = length b) then Some (zip_with fadd a b)
  else match a, b with
       | [x], _ => Some (map (fadd x) b)
       | _, [y] => Some (map (λ x, fadd x y) a)
       | _, _ => None
       end.

(** [a += b]: the result must have the shape of [a]. *)
Definition np_iadd (a b : list float) : option (list float) :=
  if decide (length b = length a) then Some (zip_with fadd a b)
  else match b with
       | [y] => Some (map (λ x, fadd x y) a)
       | _ => None
       end.

(** Array with a scalar. *)
Definition scale (a : list float) (s : float) : list float :=
  map (λ x, fmul x s) a.
Definition shift (a : list float) (s : float) : list float :=
  map (λ x, fadd x s) a.

(** Sample of [a] at integer position [i], if there is one. *)
Definition tap (a : list float) (i : Z) : option float :=
  if decide (0 ≤ i) then a !! Z.to_nat i else None.

(** The inner loop of numpy's [correlate]: accumulate [a[off + t] * w[t]]
    over the kernel positions whose tap falls inside [a]. *)
Fixpoint dot_taps (a : list float) (off : Z) (w : list float) (acc : float)
  : float :=
  match w with
  | [] => acc
  | wt :: w' =>
      dot_taps a (off + 1) w'
        (match tap a off with
         | Some x => fadd acc (fmul x wt)
         | None => acc
         end)
  end.

(** [np.correlate(a, w, 'same')] for [len(a) >= len(w)]: one output per
    sample of [a], the kernel centred with [len(w) // 2] taps to the left. *)
Definition correlate_same (a w : list float) : list float :=
  map (λ i : nat, dot_taps a (Z.of_nat i - Z.of_nat (length w / 2)) w f0)
      (seq 0 (length a)).

(** [np.convolve(a, v, 'same')]: the longer argument is the signal, an empty
    argument is a [ValueError], and the kernel is reversed for [correlate]. *)
Definition np_convolve_same (a v : list float) : option (list float) :=
  let '(a, v) := if decide (length a < length v)%nat then (v, a) else (a, v) in
  if decide (length v = 0%nat) then None
  else Some (correlate_same a (reverse v)).

(** [np.mean]: the sum divided by the count, so NaN ([0 / 0]) on an empty
    array. *)
Definition fsum (l : list float) : float := foldl fadd f0 l.
Definition np_mean (l : list float) : float :=
  fdiv (fsum l) (of_Z (Z.of_nat (length l))).

(** ** The water *)

Record Vec2d := mkVec2d { vx : float; vy : float }.

#[global] Instance Vec2d_eq_dec : EqDecision Vec2d.
Proof. solve_decision. Defined.

Definition vscale (v : Vec2d) (s : float) : Vec2d :=
  mkVec2d (fmul (vx v) s) (fmul (vy v) s).
Definition vsub (u v : Vec2d) : Vec2d :=
  mkVec2d (fsub (vx u) (vx v)) (fsub (vy u) (vy v)).

Definition BUOYANCY : Vec2d := mkVec2d (of_Z 0) (of_Z 500).
Definition WATER_DRAG : float := of_Z 20.

(** Bounding box of a shape ([pymunk.BB]). *)
Record BB := mkBB { left : float; bottom : float; right : float; top : float }.

#[global] Instance BB_eq_dec : EqDecision BB.
Proof. solve_decision. Defined.

Definition area (bb : BB) : float :=
  fmul (fsub (right bb) (left bb)) (fsub (top bb) (bottom bb)).

Definition VCONV : list float :=
  [fl 5 100; fl 3 10; fl (-8) 10; fl 3 10; fl 5 100].
Definition LCONV : list float := [fl 5 100; fl 9 10; fl 5 100].
Definition SUBDIV : Z := 5.

(** The fields of [Water] that the simulation reads and writes: the surface
    level [y], the horizontal span from [x1] to [x2], and the two sample
    arrays.  The vertex arrays built for drawing are left out. *)
Record Water := mkWater {
  y : float;
  x1 : float;
  x2 : float;
  velocities : list float;
  levels : list float;
}.

#[global] Instance Water_eq_dec : EqDecision Water.
Proof. solve_decision. Defined.

Definition np_zeros (size : Z) : option (list float) :=
  if decide (0 ≤ size) then Some (replicate (Z.to_nat size) f0) else None.

(** [Water.__init__]: [size = int(x2 - x1) * SUBDIV + 1] samples, all zero;
    [np.zeros] (like [np.linspace] before it) refuses a negative size.  The
    collision shape and the drawing list that the constructor also creates
    belong to the physics engine and the renderer. *)
Definition sample_count (x1 x2 : float) : option Z :=
  n ← py_int (fsub x2 x1); Some (n * SUBDIV + 1).

Definition Water_init (surf_y x1 x2 : float) : option Water :=
  size ← sample_count x1 x2;
  vs ← np_zeros size;
  ls ← np_zeros size;
  Some (mkWater surf_y x1 x2 vs ls).

Section Simulation.
Context `{!PyPow}.

(** [Water.update]: the velocities are updated in place, the levels are
    rebound to a new array.  The vertex array assembled afterwards for the
    renderer is not part of the simulation state. *)
Definition update (dt : float) (w : Water) : option Water :=
  c ← np_convolve_same (levels w) (scale VCONV (fmul dt (of_Z 60)));
  v ← np_iadd (velocities w) c;
  let v := scale v (py_pow (fl 1 2) dt) in
  c' ← np_convolve_same (levels w) LCONV;
  l ← np_add c' (scale (scale v (of_Z 10)) dt);
  Some (mkWater (y w) (x1 w) (x2 w) v l).

(** [n] successive calls of [update]. *)
Fixpoint update_n (n : nat) (dt : float) (w : Water) : option Water :=
  match n with
  | O => Some w
  | S n => w' ← update dt w; update_n n dt w'
  end.

(** [Water.drip]: the argument (the clock's [dt]) is not used. *)
Definition drip {A : Type} (_ : A) (w : Water) : option Water :=
  l ← setitem (levels w) (-9) (fl (-1) 2);
  v ← setitem (velocities w) (-9) (of_Z 0);
  Some (mkWater (y w) (x1 w) (x2 w) v l).

(** The sample range of [pre_solve]. *)
Definition index_range (inst : Water) (bb : BB) : option (Z * Z) :=
  ra ← py_round (fsub (left bb) (x1 inst));
  rb ← py_round (fsub (right bb) (x1 inst));
  Some (ra * SUBDIV, rb * SUBDIV).

(** The clipped ratio of [pre_solve] for one water level. *)
Definition immersion (bb : BB) (level : float) : float :=
  np_clip (fdiv (fsub level (bottom bb)) (fsub (top bb) (bottom bb))) f0 f1.

(** [frac_immersed] of [pre_solve] for the range [a:b]. *)
Definition frac_immersed (inst : Water) (bb : BB) (a b : Z) : float :=
  let levels := shift (getslice (levels inst) a b) (y inst) in
  np_mean (map (immersion bb) levels).

(** The value that [pre_solve] stores into [velocities[a:b]]. *)
Definition blend (dt : float) (velocity : Vec2d) (vs : list float)
  : list float :=
  let f := py_pow (fl 6 10) dt in
  shift (scale vs f)
        (fmul (fmul (fmul (vy velocity) (fabs (vy velocity))) (fl 1 10))
              (fsub f1 f)).

(** The force that [pre_solve] applies for a given fraction. *)
Definition buoyancy_force (bb : BB) (velocity : Vec2d) (frac : float)
  : Vec2d :=
  vscale (vsub (vscale BUOYANCY (area bb)) (vscale velocity WATER_DRAG)) frac.

(** [Water.pre_solve], the collision callback.  [dt] is the time step of the
    space, [bb] the cached bounding box of the actor's shape and [body] the
    velocity of its body, if it has one.  The result is the water after the
    call and the force handed to [body.apply_force_at_local_point]; the
    callback itself always answers [False]. *)
Definition pre_solve (dt : float) (inst : Water) (bb : BB)
    (body : option Vec2d) : option (Water * option Vec2d) :=
  match body with
  | None => Some (inst, None)
  | Some velocity =>
      '(a, b) ← index_range inst bb;
      let frac := frac_immersed inst bb a b in
      inst' ← (if flt frac f1 then
                 vs ← setslice (velocities inst) a b
                        (blend dt velocity (getslice (velocities inst) a b));
                 Some (mkWater (y inst) (x1 inst) (x2 inst) vs (levels inst))
               else Some inst);
      Some (inst', Some (buoyancy_force bb velocity frac))
  end.

End Simulation.

(** An instance of the power interface, exact where the exponent is an
    integer (the power is then rational); for other exponents the value is
    outside the rational model and is given as NaN. *)
Definition pow_integral : PyPow := λ x d,
  match x, d with
  | Fin a, Fin e =>
      if decide (Qden e = 1%positive) then
        if decide (0 ≤ Qnum e) then Fin (a ^ Z.to_nat (Qnum e))%Qc
        else fdiv f1 (Fin (a ^ Z.to_nat (- Qnum e))%Qc)
      else NaN
  | _, _ => NaN
  end.

(** A flat field of [n] samples. *)
Definition flat (surf_y x1 x2 : float) (n : nat) : Water :=
  mkWater surf_y x1 x2 (replicate n f0) (replicate n f0).

(** ** Screen and physics coordinates *)

(** What a caller passes as the first argument of the two conversions: a
    number, or something that unpacks into two numbers (a tuple, a
    [Vec2d]). *)
Inductive PyArg : Type :=
  | Num (x : float)
  | Pair (x z : float).

(** Truth value of an optional float in an [if]: [None] and zero are
    false, every other float (NaN too) is true. *)
Definition truthy (v : option float) : bool :=
  match v with
  | None => false
  | Some (Fin q) => negb (bool_decide (q = 0%Qc))
  | Some _ => true
  end.

Definition SPACE_SCALE : float := fl 1 64.

Definition vadd (u v : Vec2d) : Vec2d :=
  mkVec2d (fadd (vx u) (vx v)) (fadd (vy u) (vy v)).
Definition vdiv (v : Vec2d) (s : float) : Vec2d :=
  mkVec2d (fdiv (vx v) s) (fdiv (vy v) s).

(** [Vec2d(v, v2)] wants a number for [v], [Vec2d( *v )] wants a pair: the
    other shape is a [TypeError]. *)
Definition Vec2d_of (v : PyArg) (v2 : option float) : option Vec2d :=
  if truthy v2 then
    match v, v2 with
    | Num x, Some z => Some (mkVec2d x z)
    | _, _ => None
    end
  else
    match v with
    | Pair x z => Some (mkVec2d x z)
    | Num _ => None
    end.

Definition phys_to_screen (v : PyArg) (v2 : option float) : option Vec2d :=
  u ← Vec2d_of v v2; Some (vdiv u SPACE_SCALE).

Definition screen_to_phys (v : PyArg) (v2 : option float) : option Vec2d :=
  u ← Vec2d_of v v2; Some (vscale u SPACE_SCALE).

(** ** The frog and its tongue *)

Record Tongue := mkTongue {
  mouth_pos : Vec2d;
  fly_pos : Vec2d;
  tongue_length : float;
  tongue_t : float;
}.

(** The frog as far as [lick] and [update] go: the sprite position, the
    position of the body, and the tongue if it is out. *)
Record Frog := mkFrog {
  sprite_position : Vec2d;
  body_position : Vec2d;
  tongue : option Tongue;
}.

(** The property [Frog.mouth_pos]. *)
Definition Frog_mouth_pos (frog : Frog) : Vec2d :=
  vadd (sprite_position frog) (mkVec2d (of_Z 32) (of_Z 20)).

(** Outcome of a method that may raise after it has changed the object. *)
Inductive outcome (A : Type) : Type :=
  | Returned (a : A)
  | Raised (exn : string) (a : A).
Arguments Returned {A} a.
Arguments Raised {A} exn a.

(** [Frog.lick].  With the tongue out, the tongue is reset and then
    [self._stop_lick] is looked up, an attribute that [Frog] does not
    have. *)
Definition Frog_lick (pos : Vec2d) (frog : Frog) : outcome Frog :=
  match tongue frog with
  | Some tg =>
      Raised "AttributeError"
        (mkFrog (sprite_position frog) (body_position frog)
           (Some (mkTongue (mouth_pos tg) pos (of_Z 0) (of_Z 0))))
  | None =>
      Returned
        (mkFrog (sprite_position frog) (body_position frog)
           (Some (mkTongue (Frog_mouth_pos frog) pos (of_Z 0) (of_Z 0))))
  end.

(** [Frog.update] *)
Definition Frog_update (dt : float) (frog : Frog) : Frog :=
  let sprite := vdiv (body_position frog) SPACE_SCALE in
  let frog := mkFrog sprite (body_position frog) (tongue frog) in
  match tongue frog with
  | Some tg =>
      let t' := fadd (tongue_t tg) dt in
      if fge t' (fl 1 10) then mkFrog sprite (body_position frog) None
      else
        mkFrog sprite (body_position frog)
          (Some (mkTongue (Frog_mouth_pos frog) (fly_pos tg)
                   (fmul (fmul (of_Z 400) t') (fsub (fl 1 10) t')) t'))
  | None => frog
  end.

(** Successive frames. *)
Definition Frog_updates (dts : list float) (frog : Frog) : Frog :=
  foldl (λ f dt, Frog_update dt f) frog dts.

(** [list.remove(x)]: the first occurrence goes, [ValueError] when there is
    none. *)
Fixpoint py_remove (x : nat) (l : list nat) : option (list nat) :=
  match l with
  | [] => None
  | z :: l' => if decide (x = z) then Some l' else (z ::.) <$> py_remove x l'
  end.

(** [on_collect] as far as the frog and the list [flies] go: [fly] names
    the fly object and [pos] is the position of its sprite.  [lick] comes
    first, then [Fly.collect] takes the fly off the list. *)
Definition on_collect (fly : nat) (pos : Vec2d) (frog : Frog)
    (flies : list nat) : outcome (Frog * list nat) :=
  match Frog_lick pos frog with
  | Raised exn frog' => Raised exn (frog', flies)
  | Returned frog' =>
      match py_remove fly flies with
      | Some flies' => Returned (frog', flies')
      | None => Raised "ValueError" (frog', flies)
      end
  end.

(** ** Screenshot names *)

(** [f'day{comp_day}-{n}.png'] under [grabs], as a POSIX path. *)
Definition screenshot_name (comp_day : Z) (n : nat) : string :=
  "grabs/day" +:+ pretty comp_day +:+ "-" +:+ pretty n +:+ ".png".

(** The loop of [screenshot_path] over [count(1)], from [n] on, against the
    set [fs] of paths that exist; [fuel] bounds the number of rounds. *)
Fixpoint first_free (fs : gset string) (comp_day : Z) (fuel n : nat)
  : option string :=
  match fuel with
  | O => None
  | S fuel =>
      if decide (screenshot_name comp_day n ∈ fs)
      then first_free fs comp_day fuel (S n)
      else Some (screenshot_name comp_day n)
  end.

(** [screenshot_path]: [today] and [comp_start] are dates as day numbers,
    so that [(today - comp_start).days] is their difference. *)
Definition screenshot_path (fuel : nat) (fs : gset string)
    (today comp_start : Z) : option string :=
  first_free fs (today - comp_start + 1) fuel 1.

(** ** The update as the specification words it

    Same-length convolution in which a kernel tap that falls outside the
    signal contributes zero, the kernel being centred on the sample. *)

Definition VELOCITY_KERNEL : list float :=
  [fl 5 100; fl 3 10; fl (-8) 10; fl 3 10; fl 5 100].
Definition POSITION_KERNEL : list float := [fl 5 100; fl 9 10; fl 5 100].
Definition TIME_SCALE : float := of_Z 60.
Definition DAMPING : float := fl 1 2.
Definition VELOCITY_GAIN : float := of_Z 10.

Definition conv_term (signal kernel : list float) (i : Z) (j : nat) : float :=
  match kernel !! j, tap signal (i - Z.of_nat j) with
  | Some k, Some x => fmul k x
  | _, _ => f0
  end.

Definition convolveSame (signal kernel : list float) : list float :=
  map (λ i : nat,
         fsum (map (conv_term signal kernel
                      (Z.of_nat i + Z.of_nat ((length kernel - 1) / 2)))
                   (seq 0 (length kernel))))
      (seq 0 (length signal)).

Definition advance_velocities `{!PyPow} (dt : float) (w : Water) : list float :=
  scale (zip_with fadd (velocities w)
           (convolveSame (levels w) (scale VELOCITY_KERNEL (fmul dt TIME_SCALE))))
        (py_pow DAMPING dt).

Definition advance_heights `{!PyPow} (dt : float) (w : Water) : list float :=
  zip_with fadd (convolveSame (levels w) POSITION_KERNEL)
           (scale (scale (advance_velocities dt w) VELOCITY_GAIN) dt).

(** [advance(dt)] of the specification. *)
Definition advance `{!PyPow} (dt : float) (w : Water) : Water :=
  mkWater (y w) (x1 w) (x2 w) (advance_velocities dt w) (advance_heights dt w).

(** The term that [dot_taps] adds for kernel position [t]. *)
Definition corr_term (a w : list float) (off : Z) (t : nat) : float :=
  match tap a (off + Z.of_nat t), w !! t with
  | Some x, Some wt => fmul x wt
  | _, _ => f0
  end.

(** ** Further notions for statements about the code *)

(** A float between 0 and 1, in the comparisons of the source. *)
Definition unit_range (x : float) : Prop := fle f0 x = true ∧ fle x f1 = true.

(** A box with a positive height. *)
Definition proper_box (bb : BB) : Prop :=
  is_finite (bottom bb) ∧ is_finite (top bb) ∧ flt (bottom bb) (top bb) = true.

(** A time step in the range of the specification, from 0 to 1; [0.5 ** dt]
    and [0.6 ** dt] then lie between the base and 1. *)
Definition time_step (dt : float) : Prop :=
  fle f0 dt = true ∧ fle dt f1 = true.

(** A number of magnitude at most [10^100].  The sums and products that the
    source forms of a few such numbers stay far below the largest double,
    so that it computes them without overflow. *)
Definition moderate (x : float) : Prop :=
  fle (fabs x) (of_Z (10 ^ 100)) = true.

Definition moderate_vec (v : Vec2d) : Prop := moderate (vx v) ∧ moderate (vy v).

Definition moderate_box (bb : BB) : Prop :=
  moderate (left bb) ∧ moderate (bottom bb) ∧
  moderate (right bb) ∧ moderate (top bb).

(** A coordinate that a double scales by 64, up or down, without rounding:
    zero, or a number of magnitude between [10^-300] and [10^300]. *)
Definition scalable (x : float) : Prop :=
  x = f0 ∨
  (fle (fl 1 (10 ^ 300)) (fabs x) = true ∧
   fle (fabs x) (of_Z (10 ^ 300)) = true).

(** ** Predicates of the statements *)

(** Both arrays have the same number of samples. *)
Definition same_shape (w : Water) : Prop :=
  length (velocities w) = length (levels w).

Definition sampleCount (w : Water) : nat := length (levels w).


Definition finite_vec (v : Vec2d) : Prop := is_finite (vx v) ∧ is_finite (vy v).

Definition finite_box (bb : BB) : Prop :=
  is_finite (left bb) ∧ is_finite (bottom bb) ∧
  is_finite (right bb) ∧ is_finite (top bb).

(** ** Statements of the specification that the code does not meet *)

(** The field of the end-to-end scenario: span 10 from 0, rest level 6.5,
    51 samples at rest. *)
Definition scenario : Water := flat (fl 13 2) f0 (of_Z 10) 51.

(** The scenario's drip lands on sample 41. *)
Definition drip_lands_on_41 : Prop :=
  ∀ w', drip () scenario = Some w' →
    levels w' = <[41%nat := fl (-1) 2]> (replicate 51 f0) ∧
    velocities w' = replicate 51 f0.

(** The sample count is [round(span) * SUBDIVISION + 1]. *)
Definition count_from_round : Prop :=
  ∀ surf_y x1 x2 w, Water_init surf_y x1 x2 = Some w →
    ∃ r, py_round (fsub x2 x1) = Some r ∧
         Z.of_nat (sampleCount w) = r * SUBDIV + 1.

(** An index cut to the valid range [0, n]. *)
Definition clamp (n : nat) (i : Z) : nat :=
  Z.to_nat (Z.max 0 (Z.min i (Z.of_nat n))).

(** The sample range of the coupling is the range [a, b) clamped to the
    array. *)
Definition range_is_clamped : Prop :=
  ∀ inst bb a b, index_range inst bb = Some (a, b) →
    slice_indices (sampleCount inst) a b =
    seq (clamp (sampleCount inst) a)
        (clamp (sampleCount inst) b - clamp (sampleCount inst) a).




(** [update(dt)] computes the two formulas on every field state, for every
    time step that is not negative. *)
Definition update_is_advance_on_every_field : Prop :=
  ∀ (pow : PyPow) dt w,
    same_shape w → fle f0 dt = true →
    @update pow dt w = Some (@advance pow dt w).

(** [update(0)] keeps the velocities and smooths the heights on every field
    state. *)
Definition update_at_zero_on_every_field : Prop :=
  ∀ (pow : PyPow) w,
    same_shape w → @py_pow pow (fl 1 2) f0 = f1 →
    @update pow f0 w =
      Some (mkWater (y w) (x1 w) (x2 w) (velocities w)
              (convolveSame (levels w) POSITION_KERNEL)).

(** The water of the game: [Water(6.5)], 126 samples from 0 to 25. *)
Definition pond : Water := flat (fl 13 2) f0 (of_Z 25) 126.

(** A decision procedure run by the virtual machine. *)
Ltac by_computation :=
  lazymatch goal with
  | |- ?P => apply (bool_decide_unpack P); vm_compute; exact I
  end.

(** Turns a goal about canonical rationals into one about plain rationals. *)
Ltac to_Q :=
  unfold Qcle, Qclt, Qcdiv, Qcmult, Qcinv, Qcplus, Qcminus, Qcopp, Q2Qc in *;
  cbn [this] in *; rewrite ?Qred_correct in *.

(** * Lemmas *)

(** ** Float arithmetic *)

Lemma fadd_comm x y : fadd x y = fadd y x.
Proof. destruct x, y; simpl; try done. f_equal; ring. Qed.

Lemma fadd_assoc x y z : fadd x (fadd y z) = fadd (fadd x y) z.
Proof. destruct x, y, z; simpl; try done. f_equal; ring. Qed.

Lemma fadd_0_r x : fadd x f0 = x.
Proof. destruct x; simpl; try done. f_equal; ring. Qed.

Lemma fadd_0_l x : fadd f0 x = x.
Proof. by rewrite fadd_comm, fadd_0_r. Qed.

Lemma fmul_comm x y : fmul x y = fmul y x.
Proof.
  destruct x, y; simpl; try done; [f_equal; ring|..];
    by destruct (_ ?= _)%Qc.
Qed.

Lemma fmul_1_r x : fmul x f1 = x.
Proof. destruct x; simpl; try done. f_equal; ring. Qed.

Lemma fmul_0_r x : is_finite x → fmul x f0 = f0.
Proof. destruct x; simpl; try done. intros _. f_equal; ring. Qed.

Lemma fmul_0_l x : is_finite x → fmul f0 x = f0.
Proof. intros. by rewrite fmul_comm, fmul_0_r. Qed.

Lemma fadd_finite x y : is_finite x → is_finite y → is_finite (fadd x y).
Proof. by destruct x, y. Qed.

Lemma fsub_finite x y : is_finite x → is_finite y → is_finite (fsub x y).
Proof. by destruct x, y. Qed.

Lemma fmul_finite x y : is_finite x → is_finite y → is_finite (fmul x y).
Proof. by destruct x, y. Qed.

Lemma moderate_finite x : moderate x → is_finite x.
Proof. unfold moderate, of_Z. by destruct x; cbn [fabs fle]. Qed.

Lemma time_step_finite dt : time_step dt → is_finite dt.
Proof. intros [H0 H1]. by destruct dt. Qed.

Lemma time_step_1 : time_step f1.
Proof. split; by_computation. Qed.

Lemma moderate_vec_finite v : moderate_vec v → finite_vec v.
Proof. intros [? ?]. split; by apply moderate_finite. Qed.

Lemma moderate_box_finite bb : moderate_box bb → finite_box bb.
Proof. intros (? & ? & ? & ?). repeat split; by apply moderate_finite. Qed.

(** ** Rounding and truncation *)

Example py_round_ties :
  py_round (fl 5 2) = Some 2 ∧ py_round (fl 7 2) = Some 4 ∧
  py_round (fl (-1) 2) = Some 0 ∧ py_round (fl (-6) 10) = Some (-1).
Proof. by vm_compute. Qed.

Example py_int_truncates :
  py_int (fl 27 10) = Some 2 ∧ py_int (fl (-27) 10) = Some (-2).
Proof. by vm_compute. Qed.

(** ** Sums *)

Lemma foldl_fadd acc l : foldl fadd acc l = fadd acc (fsum l).
Proof.
  unfold fsum. revert acc.
  induction l as [|x l IH]; intros acc; cbn [foldl].
  - by rewrite fadd_0_r.
  - rewrite (IH (fadd acc x)), (IH (fadd f0 x)), fadd_0_l.
    by rewrite fadd_assoc.
Qed.

Lemma fsum_nil : fsum [] = f0.
Proof. done. Qed.

Lemma fsum_cons x l : fsum (x :: l) = fadd x (fsum l).
Proof. unfold fsum at 1; cbn [foldl]. by rewrite foldl_fadd, fadd_0_l. Qed.

Lemma fsum_app l k : fsum (l ++ k) = fadd (fsum l) (fsum k).
Proof.
  induction l as [|x l IH]; cbn [app].
  - by rewrite fsum_nil, fadd_0_l.
  - by rewrite !fsum_cons, IH, fadd_assoc.
Qed.

Lemma fsum_reverse l : fsum (reverse l) = fsum l.
Proof.
  induction l as [|x l IH]; [done|].
  rewrite reverse_cons, fsum_app, IH, !fsum_cons, fsum_nil, fadd_0_r.
  apply fadd_comm.
Qed.

Lemma fsum_zeros l : Forall (λ x, x = f0) l → fsum l = f0.
Proof.
  induction 1 as [|x l -> _ IH]; [done|].
  by rewrite fsum_cons, IH.
Qed.

(** ** Convolution *)

Lemma tap_of_nat a (i : nat) : tap a (Z.of_nat i) = a !! i.
Proof. unfold tap. case_decide; [by rewrite Nat2Z.id | lia]. Qed.

Lemma tap_neg a i : i < 0 → tap a i = None.
Proof. unfold tap. intros. case_decide; [lia | done]. Qed.

Lemma tap_ge a i : Z.of_nat (length a) ≤ i → tap a i = None.
Proof.
  unfold tap. intros. case_decide; [|done].
  apply lookup_ge_None_2. lia.
Qed.

Lemma reverse_map_seq {A} (g : nat → A) m :
  reverse (map g (seq 0 m)) = map (λ t, g (m - 1 - t)%nat) (seq 0 m).
Proof.
  induction m as [|m IH]; [done|].
  rewrite seq_S at 1. rewrite map_app, reverse_app. cbn [map seq].
  rewrite reverse_singleton. cbn [app]. f_equal.
  - f_equal. lia.
  - rewrite IH, <-fmap_S_seq, <-list_fmap_compose.
    apply list_fmap_ext. intros _ t _. simpl. f_equal. lia.
Qed.

Lemma dot_taps_fsum a off w acc :
  dot_taps a off w acc =
  fadd acc (fsum (map (corr_term a w off) (seq 0 (length w)))).
Proof.
  revert off acc. induction w as [|wt w IH]; intros off acc.
  - simpl. by rewrite fsum_nil, fadd_0_r.
  - cbn [dot_taps length seq map]. rewrite IH, fsum_cons, fadd_assoc.
    rewrite <-fmap_S_seq, <-list_fmap_compose.
    f_equal.
    + unfold corr_term. rewrite Z.add_0_r. cbn [lookup list_lookup].
      destruct (tap a off); [done | by rewrite fadd_0_r].
    + f_equal. apply list_fmap_ext. intros _ t _. unfold corr_term. simpl.
      replace (off + 1 + Z.of_nat t) with (off + Z.of_nat (S t)) by lia.
      done.
Qed.

Lemma corr_term_reverse a v (i : nat) (t : nat) :
  (t < length v)%nat →
  corr_term a (reverse v) (Z.of_nat i - Z.of_nat (length v / 2)) t =
  conv_term a v (Z.of_nat i + Z.of_nat ((length v - 1) / 2))
    (length v - 1 - t).
Proof.
  intros Ht. unfold corr_term, conv_term.
  rewrite reverse_lookup by done.
  replace (length v - S t)%nat with (length v - 1 - t)%nat by lia.
  replace (Z.of_nat i + Z.of_nat ((length v - 1) / 2)
           - Z.of_nat (length v - 1 - t))
    with (Z.of_nat i - Z.of_nat (length v / 2) + Z.of_nat t).
  - destruct (tap a _), (v !! _); try done. apply fmul_comm.
  - assert (((length v - 1) / 2 + length v / 2)%nat = (length v - 1)%nat).
    { pose proof (Nat.div_mod_eq (length v) 2).
      pose proof (Nat.div_mod_eq (length v - 1) 2).
      pose proof (Nat.mod_upper_bound (length v) 2).
      pose proof (Nat.mod_upper_bound (length v - 1) 2).
      lia. }
    lia.
Qed.

Lemma correlate_same_reverse a v :
  correlate_same a (reverse v) = convolveSame a v.
Proof.
  unfold correlate_same, convolveSame.
  apply list_fmap_ext. intros _ i _.
  rewrite dot_taps_fsum, fadd_0_l, length_reverse.
  rewrite <-(fsum_reverse (map (conv_term _ _ _) _)), reverse_map_seq.
  f_equal. apply list_fmap_ext. intros j t Ht.
  apply lookup_seq in Ht as [-> Ht]. by apply corr_term_reverse.
Qed.

(** [np.convolve(signal, kernel, 'same')] is the centred zero-padded
    convolution whenever the kernel is not longer than the signal. *)
Lemma np_convolve_same_spec signal kernel :
  (0 < length kernel ≤ length signal)%nat →
  np_convolve_same signal kernel = Some (convolveSame signal kernel).
Proof.
  intros [Hk Hs]. unfold np_convolve_same.
  case_decide; [lia|]. case_decide; [lia|].
  by rewrite correlate_same_reverse.
Qed.

Lemma length_convolveSame signal kernel :
  length (convolveSame signal kernel) = length signal.
Proof. unfold convolveSame. by rewrite length_map, length_seq. Qed.

Lemma length_correlate_same a w : length (correlate_same a w) = length a.
Proof. unfold correlate_same. by rewrite length_map, length_seq. Qed.

Lemma np_convolve_same_length a v c :
  np_convolve_same a v = Some c →
  length c = (length a `max` length v)%nat ∧ (0 < length c)%nat.
Proof.
  unfold np_convolve_same.
  case_decide; case_decide; intros [= <-];
    rewrite length_correlate_same; lia.
Qed.

(** ** Broadcasting *)

Lemma np_iadd_Some a b r :
  np_iadd a b = Some r → length b ≠ 1%nat →
  length b = length a ∧ r = zip_with fadd a b.
Proof.
  unfold np_iadd. case_decide; [naive_solver|].
  destruct b as [|? [|? ?]]; naive_solver.
Qed.

Lemma np_add_Some a b r :
  np_add a b = Some r → length a ≠ 1%nat → length b ≠ 1%nat →
  length a = length b ∧ r = zip_with fadd a b.
Proof.
  unfold np_add. case_decide; [naive_solver|].
  destruct a as [|? [|? ?]], b as [|? [|? ?]]; naive_solver.
Qed.

Lemma length_scale a s : length (scale a s) = length a.
Proof. apply length_map. Qed.

Lemma length_shift a s : length (shift a s) = length a.
Proof. apply length_map. Qed.

Lemma length_zip_with_fadd a b :
  length a = length b → length (zip_with fadd a b) = length a.
Proof. intros. rewrite length_zip_with. lia. Qed.

(** ** [update] *)

Section update_lemmas.
Context `{!PyPow}.

Lemma length_advance_velocities dt w :
  same_shape w → length (advance_velocities dt w) = length (levels w).
Proof.
  intros Hw. unfold advance_velocities.
  rewrite length_scale, length_zip_with_fadd; [done|].
  by rewrite length_convolveSame.
Qed.

Lemma length_advance_heights dt w :
  same_shape w → length (advance_heights dt w) = length (levels w).
Proof.
  intros Hw. unfold advance_heights.
  rewrite length_zip_with_fadd; [apply length_convolveSame|].
  by rewrite length_convolveSame, !length_scale, length_advance_velocities.
Qed.

(** On a field of at least five samples [update] returns, and what it
    computes is [advance]. *)
Lemma update_defined dt w :
  (5 ≤ length (levels w))%nat → same_shape w →
  update dt w = Some (advance dt w).
Proof.
  intros Hn Hw. unfold update.
  rewrite (np_convolve_same_spec _ (scale _ _))
    by (rewrite length_scale; simpl; lia).
  cbn [mbind option_bind]. unfold np_iadd.
  rewrite decide_True by (by rewrite length_convolveSame).
  cbn [mbind option_bind].
  rewrite np_convolve_same_spec by (simpl; lia).
  cbn [mbind option_bind]. unfold np_add.
  rewrite decide_True; [done|].
  rewrite length_convolveSame, !length_scale.
  rewrite length_zip_with_fadd; [done|].
  by rewrite length_convolveSame.
Qed.

(** [update] raises on every other field: the kernel of five taps is then
    longer than the signal, or the shapes do not match. *)
Lemma update_Some_shape dt w w' :
  update dt w = Some w' → (5 ≤ length (levels w))%nat ∧ same_shape w.
Proof.
  unfold update, same_shape. intros Hu.
  destruct (np_convolve_same _ (scale VCONV _)) as [c|] eqn:Hc; [|done].
  apply np_convolve_same_length in Hc as [Hc _].
  rewrite length_scale in Hc. cbn [length VCONV] in Hc.
  cbn [mbind option_bind] in Hu.
  destruct (np_iadd _ c) as [v|] eqn:Hv; [|done].
  apply np_iadd_Some in Hv as [Hcv ->]; [|lia].
  cbn [mbind option_bind] in Hu.
  destruct (np_convolve_same _ LCONV) as [c'|] eqn:Hc'; [|done].
  apply np_convolve_same_length in Hc' as [Hc' _]. cbn [length LCONV] in Hc'.
  cbn [mbind option_bind] in Hu.
  destruct (np_add c' _) as [l|] eqn:Hl; [|done].
  apply np_add_Some in Hl as [Hl _].
  - rewrite !length_scale, length_zip_with in Hl. lia.
  - lia.
  - rewrite !length_scale, length_zip_with. lia.
Qed.

Lemma update_Some dt w w' :
  update dt w = Some w' ↔
  (5 ≤ length (levels w))%nat ∧ same_shape w ∧ w' = advance dt w.
Proof.
  split.
  - intros Hu. destruct (update_Some_shape _ _ _ Hu) as [Hn Hw].
    rewrite update_defined in Hu by done. naive_solver.
  - intros (Hn & Hw & ->). by apply update_defined.
Qed.

Lemma advance_same_shape dt w : same_shape w → same_shape (advance dt w).
Proof.
  intros Hw. unfold same_shape, advance; simpl.
  by rewrite length_advance_velocities, length_advance_heights.
Qed.

Lemma advance_sampleCount dt w :
  same_shape w → sampleCount (advance dt w) = sampleCount w.
Proof. intros Hw. by apply length_advance_heights. Qed.

End update_lemmas.

(** ** Slices *)

Lemma resolve_le n i : (resolve n i ≤ n)%nat.
Proof. unfold resolve. case_decide; lia. Qed.

Lemma resolve_nonneg n i :
  0 ≤ i → resolve n i = Z.to_nat (Z.max 0 (Z.min i (Z.of_nat n))).
Proof. unfold resolve. intros. case_decide; lia. Qed.


Lemma slice_indices_lt n a b : Forall (λ i, (i < n)%nat) (slice_indices n a b).
Proof.
  unfold slice_indices. apply Forall_seq. intros i Hi.
  pose proof (resolve_le n b). lia.
Qed.

Lemma length_getslice l a b :
  length (getslice l a b) = (resolve (length l) b - resolve (length l) a)%nat.
Proof.
  unfold getslice. rewrite length_take, length_drop.
  pose proof (resolve_le (length l) b). lia.
Qed.

Lemma getslice_lookup l a b :
  Some <$> getslice l a b = (l !!.) <$> slice_indices (length l) a b.
Proof.
  unfold getslice, slice_indices.
  set (lo := resolve (length l) a). set (hi := resolve (length l) b).
  assert (hi ≤ length l)%nat by apply resolve_le.
  apply list_eq. intros i. rewrite !list_lookup_fmap.
  destruct (decide (i < hi - lo)%nat) as [Hi|Hi].
  - rewrite lookup_take_lt by done. rewrite lookup_drop.
    rewrite lookup_seq_lt by done. simpl.
    destruct (lookup_lt_is_Some_2 l (lo + i)) as [x Hx]; [lia|].
    by rewrite Hx.
  - rewrite lookup_take_ge by lia. by rewrite lookup_seq_ge by lia.
Qed.


Lemma setslice_shape l a b new :
  length new = length (getslice l a b) →
  setslice l a b new =
  Some (take (resolve (length l) a) l ++ new ++
        drop (resolve (length l) a + length new) l).
Proof.
  intros Hnew. unfold setslice. rewrite length_getslice in Hnew.
  by rewrite decide_True, Hnew by done.
Qed.

Lemma setslice_length l a b new l' :
  length new = length (getslice l a b) →
  setslice l a b new = Some l' → length l' = length l.
Proof.
  intros Hnew. rewrite setslice_shape by done. intros [= <-].
  rewrite length_getslice in Hnew.
  rewrite !length_app, length_take, length_drop.
  pose proof (resolve_le (length l) a). pose proof (resolve_le (length l) b).
  lia.
Qed.

Lemma setslice_lookup_outside l a b new l' i :
  length new = length (getslice l a b) →
  setslice l a b new = Some l' →
  i ∉ slice_indices (length l) a b → l' !! i = l !! i.
Proof.
  intros Hnew. rewrite setslice_shape by done. intros [= <-] Hi.
  rewrite length_getslice in Hnew.
  unfold slice_indices in Hi. rewrite elem_of_seq in Hi.
  pose proof (resolve_le (length l) a). pose proof (resolve_le (length l) b).
  set (lo := resolve (length l) a) in *. set (hi := resolve (length l) b) in *.
  destruct (decide (i < lo)%nat).
  - rewrite lookup_app_l by (rewrite length_take; lia).
    by rewrite lookup_take_lt.
  - rewrite lookup_app_r by (rewrite length_take; lia).
    rewrite length_take, Nat.min_l by lia.
    rewrite lookup_app_r by lia. rewrite lookup_drop. f_equal. lia.
Qed.

Lemma setslice_getslice l a b new l' :
  length new = length (getslice l a b) →
  setslice l a b new = Some l' → getslice l' a b = new.
Proof.
  intros Hnew Hset. pose proof (setslice_length _ _ _ _ _ Hnew Hset) as Hlen.
  rewrite setslice_shape in Hset by done. injection Hset as <-.
  unfold getslice. rewrite Hlen. rewrite length_getslice in Hnew.
  pose proof (resolve_le (length l) a).
  rewrite drop_app_length'; [|rewrite length_take; lia].
  rewrite <-Hnew. by rewrite take_app_length.
Qed.

(** ** [pre_solve] *)

Section pre_solve_lemmas.
Context `{!PyPow}.

Lemma length_blend dt velocity vs : length (blend dt velocity vs) = length vs.
Proof. unfold blend. by rewrite length_shift, length_scale. Qed.

(** [pre_solve] raises only where [round] does. *)
Lemma pre_solve_defined dt inst bb velocity a b :
  index_range inst bb = Some (a, b) →
  ∃ vs, setslice (velocities inst) a b
          (blend dt velocity (getslice (velocities inst) a b)) = Some vs ∧
    pre_solve dt inst bb (Some velocity) =
    Some (if flt (frac_immersed inst bb a b) f1
          then mkWater (y inst) (x1 inst) (x2 inst) vs (levels inst)
          else inst,
          Some (buoyancy_force bb velocity (frac_immersed inst bb a b))).
Proof.
  intros Hr. unfold pre_solve. rewrite Hr. cbn [mbind option_bind].
  eexists. split; [apply setslice_shape, length_blend|].
  rewrite setslice_shape by apply length_blend.
  by destruct (flt _ f1).
Qed.


End pre_solve_lemmas.

(** A box two units wide to the left of the pond: the negative offsets count
    from the right end, ten samples there are read, and the box counts as
    fully submerged. *)
Example box_left_of_pond :
  let bb := mkBB (of_Z (-3)) (of_Z 0) (of_Z (-1)) (of_Z 1) in
  index_range pond bb = Some (-15, -5) ∧
  slice_indices (sampleCount pond) (-15) (-5) = seq 111 10 ∧
  frac_immersed pond bb (-15) (-5) = f1.
Proof. split_and!; by_computation. Qed.

(** A box whose two edges round to the same integer covers no sample. *)
Example box_narrower_than_a_unit :
  let bb := mkBB (fl 66 10) (of_Z 6) (fl 74 10) (of_Z 7) in
  index_range pond bb = Some (35, 35) ∧
  frac_immersed pond bb 35 35 = NaN.
Proof. split_and!; by_computation. Qed.

(** ** [update] with no time passing *)

(** The power interface at integral exponents meets [x ** 0 = 1]. *)
Lemma pow_integral_0 : py_pow (PyPow := pow_integral) (fl 1 2) f0 = f1.
Proof. by_computation. Qed.

Lemma replicate_const (l : list float) c :
  Forall (λ x, x = c) l → l = replicate (length l) c.
Proof. induction 1 as [|x l -> _ IH]; simpl; [done | by rewrite <-IH]. Qed.

Lemma conv_term_zero_kernel signal kernel i j :
  Forall is_finite signal → Forall (λ k, k = f0) kernel →
  conv_term signal kernel i j = f0.
Proof.
  intros Hs Hk. unfold conv_term.
  destruct (kernel !! j) as [k|] eqn:Hj; [|done].
  rewrite (proj1 (Forall_lookup _ _) Hk _ _ Hj).
  unfold tap. case_decide; [|done].
  destruct (signal !! _) as [x|] eqn:Hx; [|done].
  apply fmul_0_l. by eapply (proj1 (Forall_lookup _ _) Hs).
Qed.

Lemma convolveSame_zero_kernel signal kernel :
  Forall is_finite signal → Forall (λ k, k = f0) kernel →
  convolveSame signal kernel = replicate (length signal) f0.
Proof.
  intros Hs Hk.
  rewrite <-(length_convolveSame signal kernel). apply replicate_const.
  unfold convolveSame. apply Forall_fmap, Forall_forall. intros i _. simpl.
  apply fsum_zeros, Forall_fmap, Forall_forall. intros j _. simpl.
  by apply conv_term_zero_kernel.
Qed.

Lemma zip_with_fadd_zeros a n :
  length a = n → zip_with fadd a (replicate n f0) = a.
Proof.
  intros <-. induction a as [|x a IH]; simpl; [done|].
  by rewrite fadd_0_r, IH.
Qed.

Lemma scale_1 a : scale a f1 = a.
Proof.
  unfold scale. induction a as [|x a IH]; simpl; [done|].
  by rewrite fmul_1_r, IH.
Qed.

Lemma scale_0 a : Forall is_finite a → scale a f0 = replicate (length a) f0.
Proof.
  induction 1 as [|x a Hx _ IH]; simpl; [done|].
  by rewrite fmul_0_r, IH.
Qed.

Lemma scale_finite a s :
  Forall is_finite a → is_finite s → Forall is_finite (scale a s).
Proof.
  intros Ha Hs. induction Ha as [|x a Hx _ IH]; [done|].
  constructor; [by apply fmul_finite | done].
Qed.

(** ** [drip] *)

Lemma drip_scenario :
  drip () scenario =
    Some (mkWater (fl 13 2) f0 (of_Z 10)
            (replicate 51 f0)
            (<[42%nat := fl (-1) 2]> (replicate 51 f0))).
Proof. by_computation. Qed.

Lemma setitem_from_end l (k : nat) x :
  (0 < k ≤ length l)%nat →
  setitem l (- Z.of_nat k) x = Some (<[(length l - k)%nat := x]> l).
Proof.
  intros Hk. unfold setitem.
  rewrite (decide_True (P := - Z.of_nat k < 0)) by lia.
  rewrite decide_True by lia. do 2 f_equal. lia.
Qed.

Lemma setitem_Some_length l i x l' :
  setitem l i x = Some l' → length l' = length l.
Proof.
  unfold setitem. case_decide; [|done]. intros [= <-]. apply length_insert.
Qed.

Lemma drip_defined {A} (arg : A) w :
  same_shape w → (9 ≤ sampleCount w)%nat →
  drip arg w =
    Some (mkWater (y w) (x1 w) (x2 w)
            (<[(sampleCount w - 9)%nat := f0]> (velocities w))
            (<[(sampleCount w - 9)%nat := fl (-1) 2]> (levels w))).
Proof.
  unfold same_shape, sampleCount, drip. intros Hw Hn.
  rewrite (setitem_from_end (levels w) 9) by lia. cbn [mbind option_bind].
  rewrite (setitem_from_end (velocities w) 9) by lia. cbn [mbind option_bind].
  by rewrite Hw.
Qed.

Lemma drip_Some_shape {A} (arg : A) w w' :
  drip arg w = Some w' →
  length (levels w') = length (levels w) ∧
  length (velocities w') = length (velocities w).
Proof.
  unfold drip. intros Hd.
  destruct (setitem (levels w) _ _) as [l|] eqn:Hl; [|done].
  cbn [mbind option_bind] in Hd.
  destruct (setitem (velocities w) _ _) as [v|] eqn:Hv; [|done].
  injection Hd as <-. simpl.
  eauto using setitem_Some_length.
Qed.

(** ** Shapes *)

Section shape_lemmas.
Context `{!PyPow}.

Lemma pre_solve_Some dt inst bb velocity inst' force :
  pre_solve dt inst bb (Some velocity) = Some (inst', force) →
  ∃ a b vs,
    index_range inst bb = Some (a, b) ∧
    setslice (velocities inst) a b
      (blend dt velocity (getslice (velocities inst) a b)) = Some vs ∧
    inst' = (if flt (frac_immersed inst bb a b) f1
             then mkWater (y inst) (x1 inst) (x2 inst) vs (levels inst)
             else inst) ∧
    force = Some (buoyancy_force bb velocity (frac_immersed inst bb a b)).
Proof.
  intros Hp. destruct (index_range inst bb) as [[a b]|] eqn:Hr.
  - destruct (pre_solve_defined dt inst bb velocity a b Hr) as (vs & Hs & Hd).
    rewrite Hd in Hp. injection Hp as <- <-. by exists a, b, vs.
  - unfold pre_solve in Hp. by rewrite Hr in Hp.
Qed.

Lemma pre_solve_shape dt inst bb body inst' force :
  pre_solve dt inst bb body = Some (inst', force) →
  levels inst' = levels inst ∧
  length (velocities inst') = length (velocities inst).
Proof.
  destruct body as [velocity|]; [|by intros [= <- <-]].
  intros (a & b & vs & _ & Hs & -> & _)%pre_solve_Some.
  destruct (flt _ f1); [|done]. simpl. split; [done|].
  eapply setslice_length; [|done]. apply length_blend.
Qed.

Lemma Water_init_Some surf_y x1 x2 w :
  Water_init surf_y x1 x2 = Some w ↔
  ∃ k, py_int (fsub x2 x1) = Some k ∧ 0 ≤ k ∧
       w = flat surf_y x1 x2 (Z.to_nat (k * SUBDIV + 1)).
Proof.
  unfold Water_init, sample_count, np_zeros, flat, SUBDIV.
  destruct (py_int _) as [k|]; cbn [mbind option_bind];
    [|split; [done | by intros (? & ? & _)]].
  case_decide; cbn [mbind option_bind].
  - split; [intros [= <-]; exists k; split_and!; [done|lia|done]|].
    by intros (? & [= <-] & _ & ->).
  - split; [done|]. intros (? & [= <-] & ? & _). lia.
Qed.

End shape_lemmas.

(** The constructor builds fields too short for [update]: a span below 1
    gives a single sample. *)
Example one_sample_field :
  Water_init (fl 13 2) f0 (fl 1 2) =
    Some (mkWater (fl 13 2) f0 (fl 1 2) [f0] [f0]).
Proof. by_computation. Qed.

(** ** The degenerate box *)





Lemma immersion_box bb level :
  immersion bb level =
  immersion (mkBB f0 (bottom bb) f0 (top bb)) level.
Proof. done. Qed.

(** ** Means *)

Lemma of_Z_succ (n : nat) :
  fadd f1 (of_Z (Z.of_nat n)) = of_Z (Z.of_nat (S n)).
Proof.
  unfold of_Z, f1. cbn [fadd]. f_equal. apply Qc_is_canon.
  unfold Qcplus, Q2Qc. cbn [this]. rewrite !Qred_correct.
  rewrite Nat2Z.inj_succ. unfold Z.succ. rewrite inject_Z_plus. ring.
Qed.

Lemma of_Z_nonzero (n : Z) : n ≠ 0 → Q2Qc (inject_Z n) ≠ 0%Qc.
Proof.
  intros Hn Heq. apply Q2Qc_eq_iff in Heq.
  unfold Qeq in Heq; simpl in Heq. lia.
Qed.



Lemma np_mean_zeros l : l ≠ [] → Forall (λ x, x = f0) l → np_mean l = f0.
Proof.
  intros Hne Hl. unfold np_mean. rewrite fsum_zeros by done.
  unfold of_Z, fdiv, f0.
  rewrite decide_False by (apply of_Z_nonzero; destruct l; [done | simpl; lia]).
  f_equal. unfold Qcdiv. ring.
Qed.


Lemma getslice_finite l a b :
  Forall is_finite l → Forall is_finite (getslice l a b).
Proof. intros Hl. unfold getslice. by apply Forall_take, Forall_drop. Qed.

(** * The claims *)




(** C2 (as amended).  The code applies no clamp of its own; the slice
    operation resolves [a:b] against the array.  Every position it reads or
    writes lies inside the array, and when neither offset is negative the
    positions are those of [a, b) clamped to the array. *)
Theorem C2_slice_positions (l : list float) (a b : Z) :
  Forall (λ i, (i < length l)%nat) (slice_indices (length l) a b) ∧
  Some <$> getslice l a b = (l !!.) <$> slice_indices (length l) a b ∧
  (∀ new l', length new = length (getslice l a b) →
     setslice l a b new = Some l' →
     length l' = length l ∧ getslice l' a b = new ∧
     ∀ i, i ∉ slice_indices (length l) a b → l' !! i = l !! i) ∧
  (0 ≤ a → 0 ≤ b →
   slice_indices (length l) a b =
   seq (clamp (length l) a) (clamp (length l) b - clamp (length l) a)).
Proof.
  split_and!.
  - apply slice_indices_lt.
  - apply getslice_lookup.
  - intros new l' Hnew Hs. split_and!.
    + by eapply setslice_length.
    + by eapply setslice_getslice.
    + intros i Hi. by eapply setslice_lookup_outside.
  - intros Ha Hb. unfold slice_indices, clamp.
    by rewrite !resolve_nonneg.
Qed.

(** C2 as stated fails: for a box one to two units left of the field the
    offsets are -10 and -5, and the slice covers samples 41 to 45 at the
    other end of the field, where a clamped range would be empty. *)
Lemma C2_counterexample : ¬ range_is_clamped.
Proof.
  intros Hclaim.
  specialize (Hclaim scenario (mkBB (of_Z (-2)) (of_Z 6) (of_Z (-1)) (of_Z 7))
                (-10) (-5)).
  assert (slice_indices (sampleCount scenario) (-10) (-5) =
          [41; 42; 43; 44; 45]%nat) as Hs by by_computation.
  rewrite Hs in Hclaim. revert Hclaim. by_computation.
Qed.




(** C4 (as amended).  Whenever [update(dt)] returns, the new velocities are
    [(velocities + convolveSame(heights, VELOCITY_KERNEL * (dt * 60))) * 0.5^dt]
    and the new heights are
    [convolveSame(heights, POSITION_KERNEL) + velocities' * 10 * dt], with
    [convolveSame] the same-length convolution whose out-of-bounds taps
    contribute zero; and it returns exactly on the fields whose two arrays
    have one length of at least five samples (the velocity kernel must fit
    the signal). *)
Theorem C4_update_computes_advance `{!PyPow} (dt : float) (w w' : Water) :
  update dt w = Some w' ↔
  (5 ≤ sampleCount w)%nat ∧ same_shape w ∧
  velocities w' =
    scale (zip_with fadd (velocities w)
             (convolveSame (levels w)
                (scale VELOCITY_KERNEL (fmul dt TIME_SCALE))))
          (py_pow DAMPING dt) ∧
  levels w' =
    zip_with fadd (convolveSame (levels w) POSITION_KERNEL)
             (scale (scale (velocities w') VELOCITY_GAIN) dt) ∧
  y w' = y w ∧ x1 w' = x1 w ∧ x2 w' = x2 w.
Proof.
  rewrite update_Some. unfold sampleCount. split.
  - by intros (? & ? & ->).
  - intros (? & ? & Hv & Hl & ? & ? & ?). do 2 (split; [done|]).
    rewrite Hv in Hl. destruct w'; simpl in *. by subst.
Qed.

(** C4 as stated fails: it does not hold on every field state.  On the
    one-sample field that [Water(6.5, 0, 0.5)] constructs, the five-tap
    convolution has five entries, the in-place addition to the one velocity
    raises, and [update] returns no field. *)
Lemma C4_counterexample : ¬ update_is_advance_on_every_field.
Proof.
  intros Hclaim.
  specialize (Hclaim pow_integral f1 (mkWater (fl 13 2) f0 (fl 1 2) [f0] [f0])
                eq_refl eq_refl).
  revert Hclaim. by_computation.
Qed.

(** C5 (as amended).  On the flat field of 51 samples, [drip] sets sample 42
    ([51 - 9], counting from zero) to height -0.5 and its velocity to 0, and
    every other height and velocity stays 0. *)
Theorem C5_drip_on_flat_field :
  Water_init (fl 13 2) f0 (of_Z 10) = Some scenario ∧
  drip () scenario =
    Some (mkWater (fl 13 2) f0 (of_Z 10)
            (replicate 51 f0)
            (<[42%nat := fl (-1) 2]> (replicate 51 f0))).
Proof. split; [by_computation | exact drip_scenario]. Qed.

(** C5 as stated fails: sample 41 is left at 0. *)
Lemma C5_counterexample : ¬ drip_lands_on_41.
Proof.
  intros Hclaim.
  destruct (Hclaim _ drip_scenario) as [Hl _].
  revert Hl. by_computation.
Qed.

(** C6 (as amended).  The field is built with
    [sampleCount = int(span) * SUBDIV + 1] samples, [int] cutting the span
    toward zero and [SUBDIV = 5]; construction succeeds exactly when that
    integer part is not negative, and then both arrays have [sampleCount]
    entries.  [update], [drip] and [pre_solve] keep both lengths whenever
    they return, and [update] returns exactly when there are at least five
    samples. *)
Theorem C6_sample_count_and_lengths `{!PyPow} :
  (∀ surf_y x1 x2 w, Water_init surf_y x1 x2 = Some w ↔
     ∃ k, py_int (fsub x2 x1) = Some k ∧ 0 ≤ k ∧
          w = flat surf_y x1 x2 (Z.to_nat (k * SUBDIV + 1))) ∧
  (∀ surf_y x1 x2 w k,
     Water_init surf_y x1 x2 = Some w → py_int (fsub x2 x1) = Some k →
     Z.of_nat (sampleCount w) = k * 5 + 1 ∧
     Z.of_nat (length (levels w)) = k * 5 + 1 ∧
     Z.of_nat (length (velocities w)) = k * 5 + 1) ∧
  (∀ w, same_shape w →
     (∀ dt, is_Some (update dt w) ↔ (5 ≤ sampleCount w)%nat) ∧
     (∀ dt w', update dt w = Some w' →
        same_shape w' ∧ sampleCount w' = sampleCount w) ∧
     (∀ (A : Type) (arg : A) w', drip arg w = Some w' →
        same_shape w' ∧ sampleCount w' = sampleCount w) ∧
     (∀ dt bb body w' force, pre_solve dt w bb body = Some (w', force) →
        same_shape w' ∧ sampleCount w' = sampleCount w)).
Proof.
  split; [apply Water_init_Some|]. split.
  - intros surf_y x1 x2 w k (k' & Hk' & Hpos & ->)%Water_init_Some Hk.
    assert (k' = k) as -> by congruence.
    unfold sampleCount, flat, SUBDIV; simpl. rewrite !length_replicate. lia.
  - intros w Hw. split_and!.
    + intros dt. split.
      * intros [w' Hu]. by apply update_Some in Hu as (? & _).
      * intros Hn. exists (advance dt w). by apply update_defined.
    + intros dt w' (_ & _ & ->)%update_Some.
      split; [by apply advance_same_shape | by apply advance_sampleCount].
    + intros A arg w' [Hl Hv]%drip_Some_shape.
      unfold same_shape, sampleCount in *. split; congruence.
    + intros dt bb body w' force [Hl Hv]%pre_solve_shape.
      unfold same_shape, sampleCount in *. split; congruence.
Qed.

(** C6 as stated fails: a span of 2.7 gives 11 samples, not
    [round(2.7) * 5 + 1 = 16]. *)
Lemma C6_counterexample : ¬ count_from_round.
Proof.
  intros Hclaim.
  destruct (Hclaim f0 f0 (fl 27 10) (flat f0 f0 (fl 27 10) 11))
    as (r & Hr & Hn); [by_computation|].
  assert (r = 3) as -> by (revert Hr; vm_compute; congruence).
  revert Hn. vm_compute. congruence.
Qed.

(** C7.  [pre_solve] never changes the heights, and changes velocities only
    at the positions of the slice [a:b]; it stores the blended velocities
    there exactly when the submersion fraction is below 1, and otherwise (in
    particular for a fraction of 1) returns the field as it was. *)
Theorem C7_pre_solve_frame `{!PyPow} (dt : float) (inst : Water) (bb : BB)
    (body : option Vec2d) (inst' : Water) (force : option Vec2d) :
  pre_solve dt inst bb body = Some (inst', force) →
  levels inst' = levels inst ∧
  y inst' = y inst ∧ x1 inst' = x1 inst ∧ x2 inst' = x2 inst ∧
  length (velocities inst') = length (velocities inst) ∧
  match body with
  | None => inst' = inst
  | Some velocity =>
      ∃ a b, index_range inst bb = Some (a, b) ∧
        (∀ i, i ∉ slice_indices (length (velocities inst)) a b →
              velocities inst' !! i = velocities inst !! i) ∧
        (flt (frac_immersed inst bb a b) f1 = true →
         getslice (velocities inst') a b =
         blend dt velocity (getslice (velocities inst) a b)) ∧
        (flt (frac_immersed inst bb a b) f1 = false → inst' = inst) ∧
        (frac_immersed inst bb a b = f1 → inst' = inst)
  end.
Proof.
  intros Hp. destruct body as [velocity|]; [|by injection Hp as <- <-].
  apply pre_solve_Some in Hp as (a & b & vs & Hr & Hs & -> & _).
  pose proof (length_blend dt velocity (getslice (velocities inst) a b)) as Hb.
  destruct (flt (frac_immersed inst bb a b) f1) eqn:Hf; simpl.
  - do 4 (split; [done|]). split; [by eapply setslice_length|].
    exists a, b. split; [done|]. split; [|split; [|split]].
    + intros i Hi. by eapply setslice_lookup_outside.
    + intros _. by eapply setslice_getslice.
    + congruence.
    + intros Hfrac. by rewrite Hfrac in Hf.
  - do 5 (split; [done|]). exists a, b. split; [done|]. split; [done|].
    split; [congruence|done].
Qed.

Lemma C7_witness :
  let inst := flat (fl 13 2) f0 (of_Z 1) 6 in
  let bb := mkBB f0 (of_Z 6) f1 (of_Z 8) in
  ∃ inst', pre_solve (H := pow_integral) f1 inst bb (Some (mkVec2d f0 f1))
           = Some (inst', Some (mkVec2d f0 (of_Z 245))) ∧
           levels inst' = levels inst.
Proof.
  intros inst bb.
  assert (pre_solve (H := pow_integral) f1 inst bb (Some (mkVec2d f0 f1)) =
          Some (mkWater (fl 13 2) f0 (of_Z 1)
                  (replicate 5 (fl 1 25) ++ [f0]) (replicate 6 f0),
                Some (mkVec2d f0 (of_Z 245)))) as Hp by by_computation.
  eexists. split; [exact Hp|].
  exact (proj1 (C7_pre_solve_frame _ _ _ _ _ _ Hp)).
Defined.

(** C9 (as amended).  With [dt = 0], on a field of at least five samples
    whose heights are finite and whose velocities are moderate, [update]
    leaves the velocities as they are and replaces the heights by
    [convolveSame(heights, POSITION_KERNEL)]; this is not the identity: a
    single raised sample is spread over its neighbours. *)
Theorem C9_update_at_zero_dt `{!PyPow} (w : Water) :
  py_pow (fl 1 2) f0 = f1 →
  Forall is_finite (levels w) → Forall moderate (velocities w) →
  same_shape w → (5 ≤ sampleCount w)%nat →
  update f0 w =
    Some (mkWater (y w) (x1 w) (x2 w) (velocities w)
            (convolveSame (levels w) POSITION_KERNEL)) ∧
  (levels w = [f0; f0; f1; f0; f0] →
   update f0 w ≠ Some w ∧
   convolveSame (levels w) POSITION_KERNEL = [f0; fl 1 20; fl 9 10; fl 1 20; f0]).
Proof.
  intros Hpow Hl Hmod Hw Hn.
  assert (Forall is_finite (velocities w)) as Hv.
  { eapply Forall_impl; [exact Hmod|]. apply moderate_finite. }
  assert (advance_velocities f0 w = velocities w) as Hvel.
  { unfold advance_velocities, DAMPING. rewrite Hpow, scale_1.
    replace (scale VELOCITY_KERNEL (fmul f0 TIME_SCALE))
      with (replicate 5 f0) by by_computation.
    rewrite convolveSame_zero_kernel by (done || by repeat constructor).
    by apply zip_with_fadd_zeros. }
  assert (update f0 w =
    Some (mkWater (y w) (x1 w) (x2 w) (velocities w)
            (convolveSame (levels w) POSITION_KERNEL))) as Hu.
  { rewrite update_defined by done. unfold advance. rewrite Hvel.
    do 2 f_equal. unfold advance_heights. rewrite Hvel.
    rewrite scale_0 by (by apply scale_finite).
    apply zip_with_fadd_zeros.
    by rewrite !length_scale, length_convolveSame. }
  split; [done|]. intros Hlev. rewrite Hu, Hlev.
  assert (convolveSame [f0; f0; f1; f0; f0] POSITION_KERNEL =
          [f0; fl 1 20; fl 9 10; fl 1 20; f0]) as -> by by_computation.
  split; [|done]. intros [= Hw'].
  apply (f_equal levels) in Hw'. simpl in Hw'. rewrite Hlev in Hw'.
  revert Hw'. by_computation.
Qed.

Lemma C9_witness :
  let w := mkWater (fl 13 2) f0 f1 (replicate 6 f0) [f0; f0; f1; f0; f0; f0] in
  update (H := pow_integral) f0 w =
    Some (mkWater (fl 13 2) f0 f1 (replicate 6 f0)
           (convolveSame [f0; f0; f1; f0; f0; f0] POSITION_KERNEL)).
Proof.
  intros w.
  refine (proj1 (C9_update_at_zero_dt (H := pow_integral) w _ _ _ _ _)).
  - exact pow_integral_0.
  - by repeat constructor.
  - apply Forall_replicate. by_computation.
  - reflexivity.
  - vm_compute. lia.
Defined.

(** C9 as stated fails: it does not hold on every field state.  On the
    one-sample field that [Water(6.5, 0, 0.5)] constructs, [update(0)]
    raises as for every other time step, so it neither keeps the velocity
    nor smooths the height. *)
Lemma C9_counterexample : ¬ update_at_zero_on_every_field.
Proof.
  intros Hclaim.
  specialize (Hclaim pow_integral (mkWater (fl 13 2) f0 (fl 1 2) [f0] [f0])
                eq_refl pow_integral_0).
  revert Hclaim. by_computation.
Qed.

(** C10.  [drip] does not look at its argument: whatever is passed, on a
    field of at least nine samples it returns the same field, in which the
    sample at index [sampleCount - 9] has height -0.5 and velocity 0 and no
    other sample of either array has changed. *)
Theorem C10_drip_ignores_argument (w : Water) :
  same_shape w → (9 ≤ sampleCount w)%nat →
  ∃ w',
    (∀ (A : Type) (arg : A), drip arg w = Some w') ∧
    levels w' !! (sampleCount w - 9)%nat = Some (fl (-1) 2) ∧
    velocities w' !! (sampleCount w - 9)%nat = Some f0 ∧
    (∀ i, i ≠ (sampleCount w - 9)%nat →
          levels w' !! i = levels w !! i ∧
          velocities w' !! i = velocities w !! i) ∧
    sampleCount w' = sampleCount w ∧ same_shape w' ∧
    y w' = y w ∧ x1 w' = x1 w ∧ x2 w' = x2 w.
Proof.
  intros Hw Hn. eexists. split.
  { intros A arg. by apply drip_defined. }
  unfold same_shape, sampleCount in *. simpl.
  repeat split.
  - apply list_lookup_insert_eq. lia.
  - apply list_lookup_insert_eq. lia.
  - by apply list_lookup_insert_ne.
  - by apply list_lookup_insert_ne.
  - apply length_insert.
  - by rewrite !length_insert.
Qed.

Lemma C10_witness :
  same_shape scenario ∧ (9 ≤ sampleCount scenario)%nat ∧
  ∃ w', drip 0%nat scenario = Some w' ∧ drip true scenario = Some w' ∧
        levels w' !! 42%nat = Some (fl (-1) 2).
Proof.
  assert (same_shape scenario) as Hw by reflexivity.
  assert (9 ≤ sampleCount scenario)%nat as Hn by (vm_compute; lia).
  do 2 (split; [done|]).
  destruct (C10_drip_ignores_argument scenario Hw Hn) as (w' & Hd & Hl & _).
  exists w'. split; [apply Hd | split; [apply Hd | exact Hl]].
Defined.

(** * Further properties of the code *)

(** ** [drip]: where it is defined *)

Lemma setitem_is_Some l (k : nat) x :
  (0 < k)%nat → is_Some (setitem l (- Z.of_nat k) x) ↔ (k ≤ length l)%nat.
Proof.
  intros Hk. unfold setitem.
  rewrite (decide_True (P := - Z.of_nat k < 0)) by lia.
  case_decide as Hr; split; intros Hs; try lia; try by eauto.
Qed.

Lemma drip_is_Some {A : Type} (arg : A) (w : Water) :
  is_Some (drip arg w) →
  (9 ≤ length (levels w))%nat ∧ (9 ≤ length (velocities w))%nat.
Proof.
  unfold drip. intros [w' Hd].
  destruct (setitem (levels w) _ _) as [l|] eqn:Hl; [|done].
  cbn [mbind option_bind] in Hd.
  destruct (setitem (velocities w) _ _) as [v|] eqn:Hv; [|done].
  split.
  - apply (setitem_is_Some _ 9 (fl (-1) 2)); [lia|].
    change (- Z.of_nat 9) with (-9). by rewrite Hl.
  - apply (setitem_is_Some _ 9 (of_Z 0)); [lia|].
    change (- Z.of_nat 9) with (-9). by rewrite Hv.
Qed.

(** X1.  [drip] raises ([IndexError]) exactly when one of the two arrays has
    fewer than nine samples, whatever its argument. *)
Theorem X1_drip_raises_below_nine_samples {A : Type} (arg : A) (w : Water) :
  drip arg w = None ↔
  (length (levels w) < 9)%nat ∨ (length (velocities w) < 9)%nat.
Proof.
  unfold drip.
  pose proof (setitem_is_Some (levels w) 9 (fl (-1) 2)) as Hl.
  pose proof (setitem_is_Some (velocities w) 9 (of_Z 0)) as Hv.
  change (- Z.of_nat 9) with (-9) in *.
  destruct (setitem (levels w) (-9) _) as [l|]; cbn [mbind option_bind].
  - destruct (setitem (velocities w) (-9) _) as [v|]; cbn [mbind option_bind].
    + split; [done|]. intros [H|H].
      * assert (9 ≤ length (levels w))%nat by (apply Hl; [lia | by eauto]). lia.
      * assert (9 ≤ length (velocities w))%nat
          by (apply Hv; [lia | by eauto]). lia.
    + split; [|done]. intros _. right.
      destruct (decide (length (velocities w) < 9)%nat) as [|Hn]; [done|].
      destruct (proj2 (Hv ltac:(lia)) ltac:(lia)) as [? [=]].
  - split; [|done]. intros _. left.
    destruct (decide (length (levels w) < 9)%nat) as [|Hn]; [done|].
    destruct (proj2 (Hl ltac:(lia)) ltac:(lia)) as [? [=]].
Qed.

(** X2.  [drip] is idempotent: a second drip, with any argument, leaves the
    field that the first one produced. *)
Theorem X2_drip_idempotent {A B : Type} (arg : A) (arg' : B) (w w' : Water) :
  drip arg w = Some w' → drip arg' w' = Some w'.
Proof.
  unfold drip. intros Hd.
  destruct (setitem (levels w) _ _) as [l|] eqn:Hl; [|done].
  cbn [mbind option_bind] in Hd.
  destruct (setitem (velocities w) _ _) as [v|] eqn:Hv; [|done].
  injection Hd as <-. simpl.
  assert (∀ l0 x l1, setitem l0 (-9) x = Some l1 → setitem l1 (-9) x = Some l1)
    as Hidem.
  { intros l0 x l1. unfold setitem.
    rewrite !(decide_True (P := -9 < 0)) by lia.
    case_decide as Hr; [|done]. intros [= <-].
    rewrite length_insert, decide_True by done.
    by rewrite list_insert_insert_eq. }
  rewrite (Hidem _ _ _ Hl). cbn [mbind option_bind].
  by rewrite (Hidem _ _ _ Hv).
Qed.

Lemma X2_witness :
  ∃ w', drip () scenario = Some w' ∧ drip 7%nat w' = Some w'.
Proof.
  eexists. split; [exact drip_scenario|].
  exact (X2_drip_idempotent () 7%nat _ _ drip_scenario).
Defined.

(** ** A new field: which operations it supports *)

(** X3.  On a field built by the constructor from a span with integer part
    [k], [update] returns exactly when [k >= 1] and [drip] exactly when
    [k >= 2]: a span below 1 gives a single sample, shorter than the
    velocity kernel, and a span below 2 gives six samples, fewer than the
    nine that [drip] counts back from the end. *)
Theorem X3_operations_need_a_wide_field `{!PyPow} {A : Type}
    (surf_y xl xr : float) (w : Water) (k : Z) (dt : float) (arg : A) :
  Water_init surf_y xl xr = Some w → py_int (fsub xr xl) = Some k →
  (is_Some (update dt w) ↔ 1 ≤ k) ∧ (is_Some (drip arg w) ↔ 2 ≤ k).
Proof.
  intros (k' & Hk' & Hpos & ->)%Water_init_Some Hk.
  assert (k' = k) as -> by congruence.
  assert (same_shape (flat surf_y xl xr (Z.to_nat (k * SUBDIV + 1)))) as Hw
    by reflexivity.
  assert (length (replicate (Z.to_nat (k * SUBDIV + 1)) f0) =
          Z.to_nat (k * SUBDIV + 1)) as Hlen by apply length_replicate.
  unfold SUBDIV in *. split.
  - split.
    + intros [w' (Hn & _)%update_Some]. unfold flat in Hn; simpl in Hn. lia.
    + intros Hk1. exists (advance dt (flat surf_y xl xr (Z.to_nat (k * 5 + 1)))).
      apply update_defined; [|done]. unfold flat; simpl. lia.
  - split.
    + intros [Hn _]%drip_is_Some. unfold flat in Hn; simpl in Hn. lia.
    + intros Hk2. rewrite drip_defined; [by eauto|done|].
      unfold sampleCount, flat; simpl. lia.
Qed.

Lemma X3_witness :
  let w := flat f0 f0 (fl 3 2) 6 in
  Water_init f0 f0 (fl 3 2) = Some w ∧
  is_Some (update (H := pow_integral) f1 w) ∧ ¬ is_Some (drip () w).
Proof.
  intros w.
  assert (Water_init f0 f0 (fl 3 2) = Some w) as Hi by by_computation.
  assert (py_int (fsub (fl 3 2) f0) = Some 1) as Hk by by_computation.
  destruct (X3_operations_need_a_wide_field (H := pow_integral)
              f0 f0 (fl 3 2) w 1 f1 () Hi Hk) as [Hu Hd].
  split; [exact Hi|]. split.
  - apply Hu. lia.
  - intros Hs. apply Hd in Hs. lia.
Defined.

(** ** [update]: how far a disturbance travels *)

Lemma lookup_convolveSame signal kernel i :
  (i < length signal)%nat →
  convolveSame signal kernel !! i =
  Some (fsum (map (conv_term signal kernel
                     (Z.of_nat i + Z.of_nat ((length kernel - 1) / 2)))
                  (seq 0 (length kernel)))).
Proof.
  intros Hi. unfold convolveSame.
  rewrite list_lookup_fmap, lookup_seq_lt by done. done.
Qed.

(** A sample whose neighbourhood of the kernel's radius is zero convolves to
    zero. *)
Lemma convolveSame_zero_at signal kernel c i :
  length kernel = (2 * c + 1)%nat → Forall is_finite kernel →
  (i < length signal)%nat →
  (∀ j x, signal !! j = Some x → (i ≤ j + c)%nat → (j ≤ i + c)%nat → x = f0) →
  convolveSame signal kernel !! i = Some f0.
Proof.
  intros Hk Hfin Hi Hzero. rewrite lookup_convolveSame by done.
  replace ((length kernel - 1) / 2)%nat with c
    by (rewrite Hk; replace (2 * c + 1 - 1)%nat with (c * 2)%nat by lia;
        by rewrite Nat.div_mul).
  f_equal. apply fsum_zeros, Forall_fmap, Forall_forall.
  intros t Ht%elem_of_seq. unfold compose, conv_term.
  destruct (kernel !! t) as [k|] eqn:Hkt; [|done].
  assert (is_finite k) as Hkfin by (by eapply (proj1 (Forall_lookup _ _) Hfin)).
  unfold tap. case_decide as Hpos; [|done].
  destruct (signal !! _) as [x|] eqn:Hx; [|done].
  rewrite (Hzero _ _ Hx) by lia. by apply fmul_0_r.
Qed.

Section locality.
Context `{!PyPow}.

Lemma advance_zero_at dt w i :
  is_finite dt → is_finite (py_pow (fl 1 2) dt) →
  same_shape w → (i < length (levels w))%nat →
  velocities w !! i = Some f0 →
  (∀ j x, levels w !! j = Some x → (i ≤ j + 2)%nat → (j ≤ i + 2)%nat → x = f0) →
  advance_velocities dt w !! i = Some f0 ∧ advance_heights dt w !! i = Some f0.
Proof.
  intros Hdt Hpow Hw Hi Hv Hzero.
  assert (advance_velocities dt w !! i = Some f0) as Hv'.
  { unfold advance_velocities, scale.
    rewrite list_lookup_fmap, lookup_zip_with, Hv. cbn [mbind option_bind].
    rewrite (convolveSame_zero_at _ _ 2); [|done| |done|done].
    - cbn [mbind option_bind fmap option_fmap option_map].
      by rewrite fadd_0_r, fmul_0_l.
    - apply scale_finite; [by repeat constructor|]. by apply fmul_finite. }
  split; [done|]. unfold advance_heights.
  rewrite lookup_zip_with.
  rewrite (convolveSame_zero_at _ _ 1); [|done|by repeat constructor|done|].
  - cbn [mbind option_bind]. unfold scale at 1 2.
    rewrite !list_lookup_fmap, Hv'.
    cbn [mbind option_bind fmap option_fmap option_map].
    by rewrite (fmul_0_l VELOCITY_GAIN), fmul_0_l, fadd_0_r.
  - intros j x Hx ? ?. apply (Hzero j x Hx); lia.
Qed.

End locality.

(** X4.  One [update] moves a disturbance by at most two samples: where the
    old velocity is zero and the old heights are zero at every sample within
    distance two, the new velocity and the new height are zero (for a time
    step from 0 to 1 and a finite damping factor). *)
Theorem X4_update_spreads_two_samples `{!PyPow} (dt : float) (w w' : Water)
    (i : nat) :
  time_step dt → is_finite (py_pow (fl 1 2) dt) →
  update dt w = Some w' →
  velocities w !! i = Some f0 →
  (∀ j x, levels w !! j = Some x → (i ≤ j + 2)%nat → (j ≤ i + 2)%nat → x = f0) →
  velocities w' !! i = Some f0 ∧ levels w' !! i = Some f0.
Proof.
  intros Hdt%time_step_finite Hpow (Hn & Hw & ->)%update_Some Hv Hzero.
  apply advance_zero_at; try done.
  rewrite <-Hw. by eapply lookup_lt_Some.
Qed.

Lemma X4_witness :
  let w := mkWater f0 f0 f1 (replicate 6 f0) [f1; f0; f0; f0; f0; f0] in
  ∃ w', update (H := pow_integral) f1 w = Some w' ∧
        velocities w' !! 3%nat = Some f0 ∧ levels w' !! 3%nat = Some f0.
Proof.
  intros w.
  assert (is_Some (update (H := pow_integral) f1 w)) as [w' Hu]
    by (apply (bool_decide_unpack _); vm_compute; exact I).
  exists w'. split; [exact Hu|].
  apply (X4_update_spreads_two_samples (H := pow_integral) f1 w w' 3
           time_step_1 I Hu eq_refl).
  intros j x Hx Hlo Hhi.
  destruct j as [|[|[|[|[|[|j]]]]]]; simpl in Hx; try lia;
    by injection Hx as <-.
Defined.

Section rest.
Context `{!PyPow}.

Lemma advance_flat dt surf_y xl xr n :
  is_finite dt → is_finite (py_pow (fl 1 2) dt) →
  advance dt (flat surf_y xl xr n) = flat surf_y xl xr n.
Proof.
  intros Hdt Hpow.
  assert (same_shape (flat surf_y xl xr n)) as Hw by reflexivity.
  assert (length (levels (flat surf_y xl xr n)) = n) as Hn
    by apply length_replicate.
  assert (∀ i, (i < n)%nat →
    advance_velocities dt (flat surf_y xl xr n) !! i = Some f0 ∧
    advance_heights dt (flat surf_y xl xr n) !! i = Some f0) as Hzero.
  { intros i Hi. apply advance_zero_at; try done.
    - by rewrite Hn.
    - by apply lookup_replicate_2.
    - by intros j x [-> _]%lookup_replicate. }
  assert (advance_velocities dt (flat surf_y xl xr n) = replicate n f0) as Hv.
  { apply list_eq; intros i; destruct (decide (i < n)%nat).
    - rewrite lookup_replicate_2 by done. by apply Hzero.
    - rewrite !lookup_ge_None_2; [done|rewrite length_replicate; lia|].
      rewrite length_advance_velocities by done. lia. }
  assert (advance_heights dt (flat surf_y xl xr n) = replicate n f0) as Hl.
  { apply list_eq; intros i; destruct (decide (i < n)%nat).
    - rewrite lookup_replicate_2 by done. by apply Hzero.
    - rewrite !lookup_ge_None_2; [done|rewrite length_replicate; lia|].
      rewrite length_advance_heights by done. lia. }
  unfold advance. by rewrite Hv, Hl.
Qed.

End rest.

(** X5.  Water at rest stays at rest: on a flat field of at least five
    samples [update] returns the same flat field, for every time step from
    0 to 1 and finite damping factor. *)
Theorem X5_rest_is_a_fixed_point `{!PyPow} (dt surf_y xl xr : float) (n k : nat) :
  time_step dt → is_finite (py_pow (fl 1 2) dt) → (5 ≤ n)%nat →
  update_n k dt (flat surf_y xl xr n) = Some (flat surf_y xl xr n).
Proof.
  intros Hdt%time_step_finite Hpow Hn. induction k as [|k IH]; [done|].
  cbn [update_n]. rewrite update_defined.
  - cbn [mbind option_bind]. by rewrite advance_flat.
  - unfold flat; simpl. by rewrite length_replicate.
  - reflexivity.
Qed.

Lemma X5_witness :
  update_n (H := pow_integral) 4 f1 pond = Some pond.
Proof.
  apply (X5_rest_is_a_fixed_point (H := pow_integral) f1 _ _ _ 126 4
           time_step_1 I).
  lia.
Defined.

(** X6.  After a [drip] on a flat field and one [update] with a time step
    from 0 to 1, everything more than two samples away from the dripped
    sample (index [n - 9]) is still at rest: only the samples
    [n - 11 .. n - 7] can have moved. *)
Theorem X6_drip_then_update_is_confined `{!PyPow} {A : Type} (arg : A)
    (dt surf_y xl xr : float) (n : nat) :
  time_step dt → is_finite (py_pow (fl 1 2) dt) → (9 ≤ n)%nat →
  ∃ w1 w2,
    drip arg (flat surf_y xl xr n) = Some w1 ∧ update dt w1 = Some w2 ∧
    ∀ i, (i < n)%nat → (i + 11 < n ∨ n < i + 7)%nat →
         velocities w2 !! i = Some f0 ∧ levels w2 !! i = Some f0.
Proof.
  intros Hdt%time_step_finite Hpow Hn.
  assert (same_shape (flat surf_y xl xr n)) as Hw by reflexivity.
  assert (sampleCount (flat surf_y xl xr n) = n) as Hc
    by apply length_replicate.
  pose proof (drip_defined arg (flat surf_y xl xr n) Hw) as Hd.
  rewrite Hc in Hd. specialize (Hd Hn). cbn [flat y x1 x2 velocities levels] in Hd.
  eexists _, _. split; [exact Hd|]. split.
  - apply update_defined; simpl.
    + rewrite length_insert, length_replicate. lia.
    + unfold same_shape; simpl. by rewrite !length_insert.
  - intros i Hi Hfar. apply advance_zero_at; try done; simpl.
    + unfold same_shape; simpl. by rewrite !length_insert.
    + by rewrite length_insert, length_replicate.
    + rewrite list_lookup_insert_ne by lia. by apply lookup_replicate_2.
    + intros j x Hx Hlo Hhi.
      rewrite list_lookup_insert_ne in Hx by lia.
      by apply lookup_replicate in Hx as [-> _].
Qed.

Lemma X6_witness :
  ∃ w1 w2,
    drip () scenario = Some w1 ∧
    update (H := pow_integral) f1 w1 = Some w2 ∧
    levels w2 !! 39%nat = Some f0 ∧ levels w2 !! 45%nat = Some f0.
Proof.
  destruct (X6_drip_then_update_is_confined (H := pow_integral) ()
              f1 (fl 13 2) f0 (of_Z 10) 51 time_step_1 I)
    as (w1 & w2 & Hd & Hu & Hz);
    [lia|].
  exists w1, w2. split; [exact Hd|]. split; [exact Hu|]. split.
  - apply (Hz 39%nat); lia.
  - apply (Hz 45%nat); lia.
Defined.

(** ** [pre_solve]: the submersion fraction of a proper box *)

Lemma Qc_0_le_1 : (0 ≤ 1)%Qc.
Proof. by_computation. Qed.


Lemma Qc_div_le_0 (n d : Qc) : (0 < d → n ≤ 0 → n / d ≤ 0)%Qc.
Proof. intros Hd Hn. to_Q. apply Qle_shift_div_r; [done|]. lra. Qed.

Lemma Qc_div_range (n d : Qc) :
  (0 < d → 0 ≤ n → n ≤ d → 0 ≤ n / d ∧ n / d ≤ 1)%Qc.
Proof.
  intros Hd Hn Hnd. to_Q. split.
  - apply Qle_shift_div_l; [done|]. lra.
  - apply Qle_shift_div_r; [done|]. lra.
Qed.

Lemma unit_range_Fin x : unit_range x ↔ ∃ q, x = Fin q ∧ (0 ≤ q ∧ q ≤ 1)%Qc.
Proof.
  unfold unit_range. destruct x as [q| | |]; simpl.
  - rewrite !bool_decide_eq_true. split; [by eauto|].
    by intros (? & [= <-] & ?).
  - split; [by intros [_ ?]|]. by intros (? & ? & _).
  - split; [by intros [? _]|]. by intros (? & ? & _).
  - split; [by intros [? _]|]. by intros (? & ? & _).
Qed.

(** The clipped ratio of a proper box, in rationals. *)
Lemma immersion_proper (bot tp level : Qc) :
  (bot < tp)%Qc →
  immersion (mkBB f0 (Fin bot) f0 (Fin tp)) (Fin level) =
  Fin (if decide ((level + - bot) / (tp + - bot) < 0)%Qc then 0%Qc
       else if decide (1 < (level + - bot) / (tp + - bot))%Qc then 1%Qc
       else ((level + - bot) / (tp + - bot))%Qc).
Proof.
  intros Hlt. unfold immersion, np_clip, fsub, fdiv. cbn [bottom top fopp fadd].
  rewrite decide_False.
  2:{ intros Heq. apply Qclt_minus_iff in Hlt. rewrite Heq in Hlt.
      by apply Qclt_not_eq in Hlt. }
  unfold fmaximum, fminimum, flt, f0, f1.
  destruct (decide (_ < 0)%Qc) as [Hneg|Hneg].
  - rewrite (bool_decide_eq_true_2 _ Hneg).
    by rewrite bool_decide_eq_false_2.
  - rewrite (bool_decide_eq_false_2 _ Hneg).
    destruct (decide (1 < _)%Qc) as [Hbig|Hbig].
    + by rewrite (bool_decide_eq_true_2 _ Hbig).
    + by rewrite (bool_decide_eq_false_2 _ Hbig).
Qed.

Lemma immersion_unit_range bb level :
  proper_box bb → is_finite level → unit_range (immersion bb level).
Proof.
  intros (Hb & Ht & Hlt) Hl. rewrite immersion_box.
  destruct (bottom bb) as [bot| | |], (top bb) as [tp| | |],
    level as [l| | |]; try done.
  apply bool_decide_eq_true in Hlt. rewrite immersion_proper by done.
  apply unit_range_Fin. eexists. split; [done|].
  destruct (decide (_ < 0)%Qc) as [Hneg|Hneg]; [done|].
  destruct (decide (1 < _)%Qc) as [Hbig|Hbig]; [done|].
  split; [by apply Qcnot_lt_le | by apply Qcnot_lt_le].
Qed.


Lemma immersion_below_bottom bb level :
  proper_box bb → fle level (bottom bb) = true → is_finite level →
  immersion bb level = f0.
Proof.
  intros (Hb & Ht & Hlt) Hle Hl. rewrite immersion_box.
  destruct (bottom bb) as [bot| | |], (top bb) as [tp| | |],
    level as [l| | |]; try done.
  apply bool_decide_eq_true in Hlt. apply bool_decide_eq_true in Hle.
  rewrite immersion_proper by done.
  assert ((l + - bot) / (tp + - bot) ≤ 0)%Qc as Hle0.
  { apply Qc_div_le_0; [by apply Qclt_minus_iff in Hlt|].
    apply Qcle_minus_iff in Hle.
    apply Qcopp_le_compat in Hle.
    by replace (- (bot + - l))%Qc with (l + - bot)%Qc in Hle by ring. }
  destruct (decide (_ < 0)%Qc) as [Hneg|Hneg]; [done|].
  rewrite decide_False.
  2:{ apply Qcle_not_lt. eapply Qcle_trans; [exact Hle0 | exact Qc_0_le_1]. }
  unfold f0. f_equal. apply Qcle_antisym; [done | by apply Qcnot_lt_le].
Qed.

Lemma fsum_unit_range l :
  Forall unit_range l →
  ∃ s, fsum l = Fin s ∧
       (0 ≤ s)%Qc ∧ (s ≤ Q2Qc (inject_Z (Z.of_nat (length l))))%Qc.
Proof.
  induction 1 as [|x l Hx _ (s & Hs & Hs0 & Hsn)].
  - exists 0%Qc. split; [done|]. split; by_computation.
  - apply unit_range_Fin in Hx as (q & -> & Hq0 & Hq1).
    exists (q + s)%Qc. rewrite fsum_cons, Hs. split; [done|]. split.
    + replace 0%Qc with (0 + 0)%Qc by ring. by apply Qcplus_le_compat.
    + pose proof (of_Z_succ (length l)) as Hsucc.
      apply (f_equal (λ x, match x with Fin r => r | _ => 0%Qc end)) in Hsucc.
      cbn in Hsucc. cbn [length]. rewrite <-Hsucc.
      by apply Qcplus_le_compat.
Qed.

Lemma np_mean_unit_range l :
  l ≠ [] → Forall unit_range l → unit_range (np_mean l).
Proof.
  intros Hne (s & Hs & Hs0 & Hsn)%fsum_unit_range.
  assert (Q2Qc (inject_Z (Z.of_nat (length l))) ≠ 0%Qc) as Hn
    by (apply of_Z_nonzero; destruct l; [done | simpl; lia]).
  unfold np_mean. rewrite Hs. unfold of_Z, fdiv. rewrite decide_False by done.
  apply unit_range_Fin. eexists. split; [done|].
  apply Qc_div_range; [|done..].
  destruct (Qclt_le_dec 0 (Q2Qc (inject_Z (Z.of_nat (length l))))) as [|Hle];
    [done|].
  exfalso. apply Hn. apply Qcle_antisym; [done|]. by etrans.
Qed.




Lemma frac_immersed_clear inst bb a b :
  proper_box bb → Forall is_finite (levels inst) → is_finite (y inst) →
  getslice (levels inst) a b ≠ [] →
  Forall (λ l, fle (fadd l (y inst)) (bottom bb) = true)
         (getslice (levels inst) a b) →
  frac_immersed inst bb a b = f0.
Proof.
  intros Hbb Hfin Hy Hne Hall.
  pose proof (getslice_finite _ a b Hfin) as Hsl.
  unfold frac_immersed, shift.
  apply np_mean_zeros; [by destruct (getslice _ a b)|].
  rewrite !Forall_fmap. rewrite Forall_forall in Hall, Hsl.
  apply Forall_forall. intros l Hl. unfold compose.
  apply immersion_below_bottom; [done|by apply Hall|].
  apply fadd_finite; auto.
Qed.



(** X9.  A body whose box of positive height lies entirely above the water
    levels of its range gets no force at all (for a box and a velocity of
    moderate size and a time step from 0 to 1); the heights are not
    touched. *)
Theorem X9_body_clear_of_the_water `{!PyPow} (dt : float) (inst : Water)
    (bb : BB) (velocity : Vec2d) (a b : Z) :
  time_step dt →
  proper_box bb → Forall is_finite (levels inst) → is_finite (y inst) →
  moderate_box bb → moderate_vec velocity →
  index_range inst bb = Some (a, b) → getslice (levels inst) a b ≠ [] →
  Forall (λ l, fle (fadd l (y inst)) (bottom bb) = true)
         (getslice (levels inst) a b) →
  ∃ inst', pre_solve dt inst bb (Some velocity) =
             Some (inst', Some (mkVec2d f0 f0)) ∧
           levels inst' = levels inst.
Proof.
  intros _ Hbb Hfin Hy (Hleft & _ & Hright & _)%moderate_box_finite
    [Hvx Hvy]%moderate_vec_finite Hr Hne Hall.
  destruct (pre_solve_defined dt inst bb velocity a b Hr) as (vs & _ & ->).
  rewrite frac_immersed_clear by done.
  replace (flt f0 f1) with true by by_computation.
  exists (mkWater (y inst) (x1 inst) (x2 inst) vs (levels inst)).
  split; [|done]. do 3 f_equal.
  destruct Hbb as (Hbot & Htop & _).
  unfold buoyancy_force, vscale, vsub, area, BUOYANCY, WATER_DRAG.
  cbn [vx vy].
  f_equal; apply fmul_0_r; repeat first
    [ exact I | assumption
    | apply fsub_finite | apply fmul_finite ].
Qed.

Lemma X9_witness :
  let bb := mkBB (of_Z 6) (of_Z 7) (of_Z 7) (of_Z 8) in
  ∃ inst', pre_solve (H := pow_integral) f1 pond bb (Some (mkVec2d f0 f1)) =
             Some (inst', Some (mkVec2d f0 f0)) ∧
           levels inst' = levels pond.
Proof.
  intros bb.
  apply (X9_body_clear_of_the_water (H := pow_integral) f1 pond bb
           (mkVec2d f0 f1) 30 35).
  - exact time_step_1.
  - split; [exact I|]. split; [exact I | by_computation].
  - apply Forall_replicate. exact I.
  - exact I.
  - repeat split; by_computation.
  - split; by_computation.
  - by_computation.
  - by_computation.
  - by_computation.
Defined.

(** ** [pre_solve]: the sample range of a box inside the span *)








(** ** Coordinates *)

Lemma SPACE_SCALE_nonzero : Q2Qc (1 # 64) ≠ 0%Qc.
Proof. by_computation. Qed.

Lemma scale_round_trip (x : float) :
  is_finite x →
  fmul (fdiv x SPACE_SCALE) SPACE_SCALE = x ∧
  fdiv (fmul x SPACE_SCALE) SPACE_SCALE = x.
Proof.
  destruct x as [q| | |]; try done. intros _.
  unfold SPACE_SCALE, fl, fdiv, fmul.
  rewrite decide_False by exact SPACE_SCALE_nonzero.
  split; f_equal; field; exact SPACE_SCALE_nonzero.
Qed.

Lemma scalable_finite x : scalable x → is_finite x.
Proof.
  unfold scalable, of_Z. intros [->|[_ Hhi]]; [done|].
  by destruct x; cbn [fabs fle] in Hhi.
Qed.

(** X11.  The two conversions undo each other on a pair of coordinates
    that are zero or of a magnitude between [10^-300] and [10^300] (where
    scaling by 64 is exact): physics to screen and back, and screen to
    physics and back, both return the pair they started from. *)
Theorem X11_coordinates_round_trip (x z : float) :
  scalable x → scalable z →
  (u ← phys_to_screen (Pair x z) None;
   screen_to_phys (Pair (vx u) (vy u)) None) = Some (mkVec2d x z) ∧
  (u ← screen_to_phys (Pair x z) None;
   phys_to_screen (Pair (vx u) (vy u)) None) = Some (mkVec2d x z).
Proof.
  intros Hx%scalable_finite Hz%scalable_finite.
  destruct (scale_round_trip x Hx) as [Hx1 Hx2].
  destruct (scale_round_trip z Hz) as [Hz1 Hz2].
  unfold phys_to_screen, screen_to_phys, Vec2d_of, vdiv, vscale.
  cbn [truthy mbind option_bind vx vy].
  by rewrite Hx1, Hx2, Hz1, Hz2.
Qed.

Lemma X11_witness :
  phys_to_screen (Pair (of_Z 6) (of_Z 7)) None =
    Some (mkVec2d (of_Z 384) (of_Z 448)) ∧
  screen_to_phys (Pair (of_Z 384) (of_Z 448)) None =
    Some (mkVec2d (of_Z 6) (of_Z 7)).
Proof.
  assert (phys_to_screen (Pair (of_Z 6) (of_Z 7)) None =
          Some (mkVec2d (of_Z 384) (of_Z 448))) as Hp by by_computation.
  split; [exact Hp|].
  assert (scalable (of_Z 6)) as H6 by (right; split; by_computation).
  assert (scalable (of_Z 7)) as H7 by (right; split; by_computation).
  pose proof (proj1 (X11_coordinates_round_trip (of_Z 6) (of_Z 7) H6 H7)) as Hr.
  rewrite Hp in Hr. exact Hr.
Defined.

(** X12.  Called with two numbers, a conversion tests the second one for
    truth: it returns the scaled pair when the second number is not zero,
    and raises ([TypeError], from unpacking the first number) when the
    second number is zero. *)
Theorem X12_zero_second_coordinate_raises (x z : float) :
  (phys_to_screen (Num x) (Some z) = None ↔ z = f0) ∧
  (screen_to_phys (Num x) (Some z) = None ↔ z = f0) ∧
  (z ≠ f0 →
   phys_to_screen (Num x) (Some z) =
     Some (mkVec2d (fdiv x SPACE_SCALE) (fdiv z SPACE_SCALE)) ∧
   screen_to_phys (Num x) (Some z) =
     Some (mkVec2d (fmul x SPACE_SCALE) (fmul z SPACE_SCALE))).
Proof.
  unfold phys_to_screen, screen_to_phys, Vec2d_of.
  destruct z as [q| | |]; cbn [truthy].
  - destruct (decide (q = 0%Qc)) as [->|Hq].
    + rewrite bool_decide_eq_true_2 by done. cbn [negb mbind option_bind].
      split; [done|]. split; [done|]. by intros [].
    + rewrite bool_decide_eq_false_2 by done. cbn [negb mbind option_bind].
      split; [|split; [|done]]; (split; [done|]); intros [= ?]; by subst.
  - cbn [mbind option_bind]. by repeat split.
  - cbn [mbind option_bind]. by repeat split.
  - cbn [mbind option_bind]. by repeat split.
Qed.

(** ** The tongue *)

Lemma tongue_length_Q (t : Q) :
  (0 <= t)%Q → (t < 1 # 10)%Q →
  (0 <= (400 # 1) * t * ((1 # 10) + - t))%Q ∧
  ((400 # 1) * t * ((1 # 10) + - t) <= 1)%Q.
Proof.
  intros H0 H1. split.
  - apply Qmult_le_0_compat; [apply Qmult_le_0_compat; [lra|done]|lra].
  - assert (0 <= ((20 # 1) * t - 1) * ((20 # 1) * t - 1))%Q as Hsq.
    { destruct (Qlt_le_dec ((20 # 1) * t - 1) 0).
      - assert (((20 # 1) * t - 1) * ((20 # 1) * t - 1) ==
                (- ((20 # 1) * t - 1)) * (- ((20 # 1) * t - 1)))%Q as ->
          by ring.
        apply Qmult_le_0_compat; lra.
      - apply Qmult_le_0_compat; lra. }
    assert ((400 # 1) * t * ((1 # 10) + - t) ==
            1 - ((20 # 1) * t - 1) * ((20 # 1) * t - 1))%Q as -> by ring.
    lra.
Qed.

Lemma tongue_length_Qc (t : Qc) :
  (0 ≤ t)%Qc → (t < Q2Qc (1 # 10))%Qc →
  (0 ≤ Q2Qc (inject_Z 400) * t * (Q2Qc (1 # 10) + - t))%Qc ∧
  (Q2Qc (inject_Z 400) * t * (Q2Qc (1 # 10) + - t) ≤ 1)%Qc.
Proof.
  intros H0 H1. to_Q.
  change (Qred (1 # 10)) with (1 # 10)%Q in *.
  change (Qred (inject_Z 400)) with (400 # 1)%Q in *.
  by apply tongue_length_Q.
Qed.

Lemma Qc_1_le_tolerance : (1 ≤ Q2Qc (1000001 # 1000000))%Qc.
Proof. by_computation. Qed.

Lemma Qc_margin_lt_tenth : (Q2Qc (999 # 10000) < Q2Qc (1 # 10))%Qc.
Proof. by_computation. Qed.

(** X13.  While the tongue is out, [update] retracts it when its clock
    reaches 0.1; when the clock stays between 0 and 0.0999 the tongue stays
    out, aims at the same fly, and its length [400 t (0.1 - t)] is not
    negative and at most 1.000001 (the exact value is at most 1, the
    margin leaves room for the rounding of the product). *)
Theorem X13_tongue_length_bounds (dt : float) (frog : Frog) (tg : Tongue) :
  tongue frog = Some tg →
  (fge (fadd (tongue_t tg) dt) (fl 1 10) = true →
   tongue (Frog_update dt frog) = None) ∧
  (fle f0 (fadd (tongue_t tg) dt) = true →
   fle (fadd (tongue_t tg) dt) (fl 999 10000) = true →
   ∃ tg',
     tongue (Frog_update dt frog) = Some tg' ∧
     tongue_t tg' = fadd (tongue_t tg) dt ∧ fly_pos tg' = fly_pos tg ∧
     fle f0 (tongue_length tg') = true ∧
     fle (tongue_length tg') (fl 1000001 1000000) = true).
Proof.
  intros Htg. unfold Frog_update. cbn [tongue]. rewrite Htg. split.
  - by intros ->.
  - intros Hpos Hhi.
    destruct (fadd (tongue_t tg) dt) as [t| | |] eqn:Ht; try done.
    unfold fl, f0 in Hpos, Hhi. cbn [fle] in Hpos, Hhi.
    apply bool_decide_eq_true in Hpos. apply bool_decide_eq_true in Hhi.
    assert (t < Q2Qc (1 # 10))%Qc as Hlt
      by (eapply Qcle_lt_trans; [exact Hhi | exact Qc_margin_lt_tenth]).
    destruct (tongue_length_Qc t Hpos Hlt) as [Hlo Hup].
    unfold fge, fl. cbn [fle].
    rewrite bool_decide_eq_false_2 by (by apply Qclt_not_le).
    eexists. split; [done|]. cbn [tongue_t tongue_length fly_pos].
    split; [done|]. split; [done|].
    unfold of_Z, fl, fsub. cbn [fopp fadd fmul fle f0].
    split; apply bool_decide_eq_true; [done|].
    eapply Qcle_trans; [exact Hup | exact Qc_1_le_tolerance].
Qed.

Lemma X13_witness :
  let frog := mkFrog (mkVec2d f0 f0) (mkVec2d (of_Z 6) (of_Z 7))
                (Some (mkTongue (mkVec2d f0 f0) (mkVec2d f1 f1) f0 f0)) in
  ∃ tg', tongue (Frog_update (fl 1 32) frog) = Some tg' ∧
         fle f0 (tongue_length tg') = true ∧
         fle (tongue_length tg') (fl 1000001 1000000) = true.
Proof.
  intros frog.
  destruct (proj2 (X13_tongue_length_bounds (fl 1 32) frog
                     (mkTongue (mkVec2d f0 f0) (mkVec2d f1 f1) f0 f0)
                     eq_refl))
    as (tg' & Htg & _ & _ & Hlo & Hhi); [by_computation..|].
  by exists tg'.
Defined.

Lemma Frog_update_tongue dt frog tg :
  tongue frog = Some tg →
  tongue (Frog_update dt frog) =
  if fge (fadd (tongue_t tg) dt) (fl 1 10) then None
  else Some (mkTongue
               (Frog_mouth_pos
                  (mkFrog (vdiv (body_position frog) SPACE_SCALE)
                     (body_position frog) (tongue frog)))
               (fly_pos tg)
               (fmul (fmul (of_Z 400) (fadd (tongue_t tg) dt))
                     (fsub (fl 1 10) (fadd (tongue_t tg) dt)))
               (fadd (tongue_t tg) dt)).
Proof.
  intros Htg. unfold Frog_update. cbn [tongue body_position]. rewrite Htg.
  by destruct (fge _ _).
Qed.

Lemma Frog_update_idle dt frog :
  tongue frog = None → tongue (Frog_update dt frog) = None.
Proof. intros Htg. unfold Frog_update. cbn [tongue]. by rewrite Htg. Qed.

Lemma Frog_updates_idle dts frog :
  tongue frog = None → tongue (Frog_updates dts frog) = None.
Proof.
  revert frog. induction dts as [|dt dts IH]; intros frog Htg; [done|].
  apply IH. by apply Frog_update_idle.
Qed.

Lemma fsum_nonneg dts :
  Forall (λ dt, is_finite dt ∧ fle f0 dt = true) dts →
  ∃ s, fsum dts = Fin s ∧ (0 ≤ s)%Qc.
Proof.
  induction 1 as [|dt dts [Hfin Hpos] _ (s & Hs & Hs0)].
  - exists 0%Qc. split; [done | by_computation].
  - destruct dt as [d| | |]; try done. apply bool_decide_eq_true in Hpos.
    exists (d + s)%Qc. rewrite fsum_cons, Hs. split; [done|].
    replace 0%Qc with (0 + 0)%Qc by ring. by apply Qcplus_le_compat.
Qed.

(** The tongue is back in after the frames [dts] exactly when its clock plus
    their sum reaches 0.1. *)
Lemma Frog_updates_tongue dts frog tg a :
  tongue frog = Some tg → tongue_t tg = Fin a → (a < Q2Qc (1 # 10))%Qc →
  Forall (λ dt, is_finite dt ∧ fle f0 dt = true) dts →
  ∃ s, fsum dts = Fin s ∧
       (tongue (Frog_updates dts frog) = None ↔ (Q2Qc (1 # 10) ≤ a + s)%Qc).
Proof.
  intros Htg Ht Ha Hdts. revert frog tg a Htg Ht Ha.
  induction Hdts as [|dt dts [Hfin Hpos] Hdts IH]; intros frog tg a Htg Ht Ha.
  - exists 0%Qc. split; [done|]. cbn. rewrite Htg, Qcplus_0_r.
    split; [done|]. intros Hle. by apply Qcle_not_lt in Hle.
  - destruct dt as [d| | |]; try done. apply bool_decide_eq_true in Hpos.
    destruct (fsum_nonneg dts Hdts) as (s & Hs & Hs0).
    exists (d + s)%Qc. rewrite fsum_cons, Hs. split; [done|].
    change (Frog_updates (Fin d :: dts) frog)
      with (Frog_updates dts (Frog_update (Fin d) frog)).
    pose proof (Frog_update_tongue (Fin d) frog tg Htg) as Hup.
    rewrite Ht in Hup. cbn [fadd] in Hup.
    destruct (fge (Fin (a + d)) (fl 1 10)) eqn:Hge.
    + rewrite Frog_updates_idle by done. split; [intros _|done].
      unfold fge, fl, fle in Hge. apply bool_decide_eq_true in Hge.
      rewrite Qcplus_assoc.
      replace (Q2Qc (1 # 10)) with (Q2Qc (1 # 10) + 0)%Qc by ring.
      by apply Qcplus_le_compat.
    + unfold fge, fl, fle in Hge. apply bool_decide_eq_false in Hge.
      apply Qcnot_le_lt in Hge.
      destruct (IH _ _ (a + d)%Qc Hup eq_refl Hge) as (s' & Hs' & Hiff).
      assert (s' = s) as -> by congruence.
      rewrite Hiff. by rewrite Qcplus_assoc.
Qed.

(** X14.  A frog with the tongue in can lick.  If it licks again after at
    most a thousand frames whose time steps (finite, not negative) add up to
    0.099 at most, the tongue is still out and the second [lick] raises
    [AttributeError] (there is no [_stop_lick]), after it has reset the
    tongue onto the new target; once the steps add up to 0.101 or more the
    tongue is back in and the second [lick] returns.  (Between the two
    sums, which side of 0.1 the clock of the source is on depends on how its
    additions round.) *)
Theorem X14_second_lick_within_a_tenth_raises (pos pos' : Vec2d) (frog : Frog)
    (dts : list float) :
  tongue frog = None →
  Forall (λ dt, is_finite dt ∧ fle f0 dt = true) dts →
  (length dts ≤ 1000)%nat →
  ∃ frog1,
    Frog_lick pos frog = Returned frog1 ∧
    (fle (fsum dts) (fl 99 1000) = true →
     ∃ frog2 tg,
       Frog_lick pos' (Frog_updates dts frog1) = Raised "AttributeError" frog2 ∧
       tongue frog2 = Some tg ∧ fly_pos tg = pos' ∧
       tongue_t tg = of_Z 0 ∧ tongue_length tg = of_Z 0) ∧
    (fge (fsum dts) (fl 101 1000) = true →
     ∃ frog2, Frog_lick pos' (Frog_updates dts frog1) = Returned frog2).
Proof.
  intros Hidle Hdts _. unfold Frog_lick at 1. rewrite Hidle.
  eexists. split; [done|].
  set (frog1 := mkFrog _ _ _).
  destruct (Frog_updates_tongue dts frog1 _ 0%Qc eq_refl eq_refl)
    as (s & Hs & Hiff); [by_computation|done|].
  rewrite Hs, Qcplus_0_l in *.
  split.
  - intros Hle. unfold fl in Hle. cbn [fle] in Hle.
    apply bool_decide_eq_true in Hle.
    assert (s < Q2Qc (1 # 10))%Qc as Hlt
      by (eapply Qcle_lt_trans; [exact Hle | by_computation]).
    destruct (tongue (Frog_updates dts frog1)) as [tg|] eqn:Htg.
    + unfold Frog_lick. rewrite Htg. by eexists _, _.
    + exfalso. apply (Qclt_not_le _ _ Hlt). by apply Hiff.
  - intros Hge. unfold fge, fl in Hge. cbn [fle] in Hge.
    apply bool_decide_eq_true in Hge.
    assert (Q2Qc (1 # 10) ≤ s)%Qc as Hge'
      by (eapply Qcle_trans; [|exact Hge]; by_computation).
    apply Hiff in Hge'. unfold Frog_lick. rewrite Hge'. by eexists.
Qed.

Lemma X14_witness :
  let frog := mkFrog (mkVec2d (of_Z 384) (of_Z 448))
                (mkVec2d (of_Z 6) (of_Z 7)) None in
  ∃ frog1 frog2,
    Frog_lick (mkVec2d f1 f1) frog = Returned frog1 ∧
    Frog_lick (mkVec2d f0 f0) (Frog_updates [fl 1 20] frog1) =
      Raised "AttributeError" frog2.
Proof.
  intros frog.
  destruct (X14_second_lick_within_a_tenth_raises (mkVec2d f1 f1)
              (mkVec2d f0 f0) frog [fl 1 20] eq_refl)
    as (frog1 & Hl & Hraise & _).
  - constructor; [|constructor]. split; [exact I | by_computation].
  - simpl. lia.
  - destruct Hraise as (frog2 & tg & Hl2 & _); [by_computation|].
    by exists frog1, frog2.
Defined.

(** ** [on_collect] *)

Lemma py_remove_Some x l :
  x ∈ l → NoDup l →
  ∃ l', py_remove x l = Some l' ∧ (x ∉ l') ∧
        length l = S (length l') ∧ ∀ z, z ≠ x → (z ∈ l' ↔ z ∈ l).
Proof.
  induction l as [|z l IH]; intros Hin Hnd; [by apply elem_of_nil in Hin|].
  apply NoDup_cons in Hnd as [Hz Hnd]. cbn [py_remove].
  destruct (decide (x = z)) as [->|Hne].
  - exists l. split_and!; [done..|].
    intros w Hw. rewrite elem_of_cons. split; [by right|].
    by intros [?|?].
  - apply elem_of_cons in Hin as [?|Hin]; [done|].
    destruct (IH Hin Hnd) as (l' & -> & Hx & Hlen & Hrest).
    exists (z :: l'). cbn. split_and!.
    + done.
    + rewrite elem_of_cons. by intros [?|?].
    + by rewrite Hlen.
    + intros w Hw. rewrite !elem_of_cons, Hrest by done. done.
Qed.

Lemma py_remove_None x l : x ∉ l → py_remove x l = None.
Proof.
  induction l as [|z l IH]; [done|].
  rewrite elem_of_cons. intros Hx. cbn [py_remove].
  rewrite decide_False by (intros ->; apply Hx; by left).
  rewrite IH by (intros ?; apply Hx; by right). done.
Qed.

(** X15.  When a fly is caught while the tongue is out, [on_collect] raises
    in [lick] and the fly is never taken off [flies].  With the tongue in
    and the fly listed once, the tongue goes out from the frog's mouth
    toward the fly's sprite and the fly leaves the list, all other flies
    staying. *)
Theorem X15_fly_caught_while_licking_stays (fly : nat) (pos : Vec2d)
    (frog : Frog) (flies : list nat) :
  (∀ tg, tongue frog = Some tg →
     ∃ frog', on_collect fly pos frog flies =
                Raised "AttributeError" (frog', flies)) ∧
  (tongue frog = None → fly ∈ flies → NoDup flies →
     ∃ frog' flies',
       on_collect fly pos frog flies = Returned (frog', flies') ∧
       tongue frog' = Some (mkTongue (Frog_mouth_pos frog) pos (of_Z 0) (of_Z 0)) ∧
       (fly ∉ flies') ∧ length flies = S (length flies') ∧
       ∀ g, g ≠ fly → (g ∈ flies' ↔ g ∈ flies)).
Proof.
  unfold on_collect, Frog_lick. split.
  - intros tg ->. by eexists.
  - intros -> Hin Hnd.
    destruct (py_remove_Some fly flies Hin Hnd) as (l' & -> & ? & ? & ?).
    by eexists _, _.
Qed.

(** ** Screenshot names *)

Lemma string_length_app (s1 s2 : string) :
  String.length (s1 +:+ s2) = (String.length s1 + String.length s2)%nat.
Proof. induction s1 as [|a s1 IH]; simpl; [done | by f_equal]. Qed.

Lemma string_app_inj_r (s1 s2 s : string) : s1 +:+ s = s2 +:+ s → s1 = s2.
Proof.
  revert s2. induction s1 as [|a s1 IH]; intros [|b s2] Heq; simpl in Heq.
  - done.
  - apply (f_equal String.length) in Heq.
    rewrite !string_length_app in Heq. simpl in Heq.
    rewrite ?string_length_app in Heq. lia.
  - apply (f_equal String.length) in Heq.
    rewrite !string_length_app in Heq. simpl in Heq.
    rewrite ?string_length_app in Heq. lia.
  - injection Heq as -> Heq. f_equal. by apply IH.
Qed.

Lemma screenshot_name_inj comp_day : Inj (=) (=) (screenshot_name comp_day).
Proof.
  intros n m Heq. unfold screenshot_name in Heq.
  do 3 apply String.app_inj in Heq.
  apply string_app_inj_r in Heq. by apply (inj pretty).
Qed.

(** What the loop returns, and what running out of rounds means. *)
Lemma first_free_spec fs comp_day fuel n :
  match first_free fs comp_day fuel n with
  | Some p =>
      ∃ k, (k < fuel)%nat ∧ p = screenshot_name comp_day (n + k) ∧ (p ∉ fs) ∧
           ∀ j, (j < k)%nat → screenshot_name comp_day (n + j) ∈ fs
  | None => ∀ j, (j < fuel)%nat → screenshot_name comp_day (n + j) ∈ fs
  end.
Proof.
  revert n. induction fuel as [|fuel IH]; intros n; cbn [first_free].
  - intros j Hj. lia.
  - destruct (decide (screenshot_name comp_day n ∈ fs)) as [Hin|Hout].
    + specialize (IH (S n)).
      destruct (first_free fs comp_day fuel (S n)) as [p|].
      * destruct IH as (k & Hk & -> & Hp & Hbelow).
        exists (S k). split; [lia|].
        replace (n + S k)%nat with (S n + k)%nat by lia.
        split; [done|]. split; [done|].
        intros [|j] Hj; [by rewrite Nat.add_0_r|].
        replace (n + S j)%nat with (S n + j)%nat by lia. apply Hbelow. lia.
      * intros [|j] Hj; [by rewrite Nat.add_0_r|].
        replace (n + S j)%nat with (S n + j)%nat by lia. apply IH. lia.
    + exists 0%nat. rewrite Nat.add_0_r. split; [lia|].
      split; [done|]. split; [done|]. intros j Hj. lia.
Qed.

(** Not all of [size fs + 1] different names can exist. *)
Lemma some_name_is_free (fs : gset string) comp_day n :
  ¬ ∀ j, (j < S (size fs))%nat → screenshot_name comp_day (n + j) ∈ fs.
Proof.
  intros Hall.
  set (names := (λ j, screenshot_name comp_day (n + j)) <$> seq 0 (S (size fs))).
  assert (NoDup names) as Hnd.
  { apply NoDup_fmap_2; [|apply NoDup_seq].
    intros i j Hij. apply screenshot_name_inj in Hij. lia. }
  assert (list_to_set (C := gset string) names ⊆ fs) as Hsub.
  { intros p Hp. apply elem_of_list_to_set in Hp.
    apply list_elem_of_fmap in Hp as (j & -> & Hj).
    apply elem_of_seq in Hj. apply Hall. lia. }
  apply subseteq_size in Hsub.
  rewrite size_list_to_set in Hsub by done.
  unfold names in Hsub. rewrite length_fmap, length_seq in Hsub. lia.
Qed.

(** X16.  Against any finite set of existing paths, [screenshot_path] finds
    a name within [size + 1] rounds: it is [grabs/day<d>-<n>.png] for the
    competition day [d = today - comp_start + 1] and the smallest [n >= 1]
    whose path does not exist yet, so no existing screenshot is ever
    overwritten; more rounds give the same answer. *)
Theorem X16_screenshot_path_is_the_first_free_name (fs : gset string)
    (today comp_start : Z) (extra : nat) :
  ∃ n,
    screenshot_path (S (size fs) + extra) fs today comp_start =
      Some (screenshot_name (today - comp_start + 1) n) ∧
    (1 ≤ n ≤ S (size fs))%nat ∧
    (screenshot_name (today - comp_start + 1) n ∉ fs) ∧
    ∀ m, (1 ≤ m < n)%nat →
         screenshot_name (today - comp_start + 1) m ∈ fs.
Proof.
  unfold screenshot_path. set (d := today - comp_start + 1).
  pose proof (first_free_spec fs d (S (size fs) + extra) 1) as Hspec.
  destruct (first_free fs d (S (size fs) + extra) 1) as [p|].
  - destruct Hspec as (k & Hk & -> & Hfree & Hbelow).
    exists (1 + k)%nat. split; [done|].
    assert (k < S (size fs))%nat as Hsmall.
    { destruct (decide (k < S (size fs))%nat) as [|Hbig]; [done|].
      exfalso. apply (some_name_is_free fs d 1).
      intros j Hj. apply Hbelow. lia. }
    split; [lia|]. split; [done|].
    intros m Hm. replace m with (1 + (m - 1))%nat by lia. apply Hbelow. lia.
  - exfalso. apply (some_name_is_free fs d 1).
    intros j Hj. apply Hspec. lia.
Qed.

(** Two earlier screenshots of the third competition day exist: the next one
    is number 3. *)
Example screenshot_path_third :
  screenshot_path 3 {[ "grabs/day3-1.png"; "grabs/day3-2.png" ]}%string 102 100
  = Some "grabs/day3-3.png"%string.
Proof. by vm_compute. Qed.

(** ** [pre_solve]: higher water, more submersion *)








(** ** [pre_solve]: the direction of the force *)

Lemma frac_immersed_unit_range inst bb a b :
  proper_box bb → Forall is_finite (levels inst) → is_finite (y inst) →
  getslice (levels inst) a b ≠ [] →
  unit_range (frac_immersed inst bb a b).
Proof.
  intros Hbb Hfin Hy Hne.
  pose proof (getslice_finite _ a b Hfin) as Hsl.
  apply np_mean_unit_range.
  - unfold shift. by destruct (getslice _ a b).
  - unfold shift. rewrite !Forall_fmap. rewrite Forall_forall in Hsl.
    apply Forall_forall. intros l Hl. unfold compose.
    apply immersion_unit_range; [done|]. apply fadd_finite; auto.
Qed.

Lemma Q_square_nonneg (v : Q) : (0 <= v * v)%Q.
Proof.
  destruct (Qlt_le_dec v 0).
  - assert (v * v == (- v) * (- v))%Q as -> by ring.
    apply Qmult_le_0_compat; lra.
  - by apply Qmult_le_0_compat.
Qed.

Lemma drag_Q (ar v q : Q) :
  (0 <= q)%Q → ((0 * ar + - (v * (20 # 1))) * q * v <= 0)%Q.
Proof.
  intros Hq.
  assert ((0 * ar + - (v * (20 # 1))) * q * v == - ((20 # 1) * (q * (v * v))))%Q
    as -> by ring.
  pose proof (Qmult_le_0_compat _ _ Hq (Q_square_nonneg v)). lra.
Qed.

Lemma lift_Q (l r bo tp v q : Q) :
  (0 <= q)%Q → (l <= r)%Q → (bo < tp)%Q → (v <= 0)%Q →
  (0 <= ((500 # 1) * ((r + - l) * (tp + - bo)) + - (v * (20 # 1))) * q)%Q.
Proof.
  intros Hq Hlr Hbt Hv.
  apply Qmult_le_0_compat; [|done].
  assert (0 <= (r + - l) * (tp + - bo))%Q by (apply Qmult_le_0_compat; lra).
  lra.
Qed.

(** X19.  The force that [pre_solve] applies to a body with a box of
    positive height over a non-empty range of finite levels never speeds
    the body up sideways (its horizontal component times the horizontal
    velocity is at most 0), and when the box is not reversed and the body
    is not rising, its vertical component is not negative (for a box and a
    velocity of moderate size and a time step from 0 to 1). *)
Theorem X19_water_force_direction `{!PyPow} (dt : float) (inst : Water)
    (bb : BB) (velocity : Vec2d) (a b : Z) :
  time_step dt →
  proper_box bb → Forall is_finite (levels inst) → is_finite (y inst) →
  moderate_box bb → moderate_vec velocity →
  index_range inst bb = Some (a, b) → getslice (levels inst) a b ≠ [] →
  ∃ inst' force,
    pre_solve dt inst bb (Some velocity) = Some (inst', Some force) ∧
    fle (fmul (vx force) (vx velocity)) f0 = true ∧
    (fle (left bb) (right bb) = true → fle (vy velocity) f0 = true →
     fle f0 (vy force) = true).
Proof.
  intros _ Hbb Hfin Hy (Hleft & _ & Hright & _)%moderate_box_finite
    [Hvx Hvy]%moderate_vec_finite Hr Hne.
  destruct (pre_solve_defined dt inst bb velocity a b Hr) as (vs & _ & ->).
  pose proof (frac_immersed_unit_range inst bb a b Hbb Hfin Hy Hne) as Hfrac.
  apply unit_range_Fin in Hfrac as (q & -> & Hq0 & _).
  do 2 eexists. split; [done|].
  destruct Hbb as (Hbot & Htop & Hlt).
  unfold buoyancy_force, vscale, vsub, area, BUOYANCY, WATER_DRAG, fsub, of_Z.
  cbn [vx vy].
  destruct velocity as [vh vv]. cbn [vx vy] in *.
  destruct (left bb) as [l| | |], (right bb) as [r| | |],
    (bottom bb) as [bo| | |], (top bb) as [tp| | |],
    vh as [h| | |], vv as [v| | |]; try done.
  cbn [fopp fadd fmul fle f0]. apply bool_decide_eq_true in Hlt.
  split.
  - apply bool_decide_eq_true. to_Q.
    change (inject_Z 0) with 0%Q. change (inject_Z 20) with (20 # 1)%Q.
    by apply drag_Q.
  - rewrite !bool_decide_eq_true. intros Hlr Hv. to_Q.
    change (inject_Z 0) with 0%Q in *.
    change (inject_Z 20) with (20 # 1)%Q.
    change (inject_Z 500) with (500 # 1)%Q.
    by apply lift_Q.
Qed.

Lemma X19_witness :
  let bb := mkBB (of_Z 6) (of_Z 6) (of_Z 7) (of_Z 8) in
  let velocity := mkVec2d (of_Z 3) (of_Z (-2)) in
  ∃ inst' force,
    pre_solve (H := pow_integral) f1 pond bb (Some velocity) =
      Some (inst', Some force) ∧
    fle (fmul (vx force) (vx velocity)) f0 = true ∧
    (fle (left bb) (right bb) = true → fle (vy velocity) f0 = true →
     fle f0 (vy force) = true).
Proof.
  intros bb velocity.
  apply (X19_water_force_direction (H := pow_integral) f1 pond bb velocity
           30 35).
  - exact time_step_1.
  - split; [exact I|]. split; [exact I | by_computation].
  - apply Forall_replicate. exact I.
  - exact I.
  - repeat split; by_computation.
  - split; by_computation.
  - by_computation.
  - by_computation.
Defined.
